(** * simplecache: an expiring in-memory key-value cache

    Shallow embedding of package [keyvalstore] and proofs of its
    specification.  Two revisions of [SimpleCache] are embedded:

    - [VariantA]: the fixed-TTL revision (one [expiryDur] for the whole
      cache, [Get] deletes an expired entry it finds);
    - [VariantB]: [simple_cache.go], the per-call TTL revision with a
      janitor goroutine, a [done] channel, a [sync.WaitGroup] and a
      [sync.Once].

    Every method body runs under the cache's mutex, so a method call is one
    atomic transition of the cache.  A method reads the clock once
    ([time.Now()]); that reading is the [now] argument of its embedding. *)

From stdpp Require Import gmap strings list fin_maps.
From Stdlib Require Import ZArith Lia.

Local Open Scope Z_scope.

(** ** The part of Go's [time] package the cache uses

    Instants and durations are counted in nanoseconds, as unbounded
    integers (the limits of the 64-bit representations are outside the
    model), and the clock is monotonic: a later call never reads an
    earlier instant, but may read the same one.  [Time.Add] is
    addition, [Time.After] is the strict order, and [time.NewTicker]
    panics on a non-positive interval, as its documentation states
    ("The duration d must be greater than zero; if not, NewTicker will
    panic"). *)
Module GoTime.

Definition Time := Z.
Definition Duration := Z.

Definition Add (t : Time) (d : Duration) : Time := t + d.

(** [After t u] is Go's [t.After(u)]: [t] is strictly later than [u]. *)
Definition After (t u : Time) : bool := u <? t.

Record Ticker := { period : Duration }.

Definition NewTicker (d : Duration) : option Ticker :=
  if d <=? 0 then None else Some {| period := d |}.

End GoTime.
Import GoTime.

(** [cacheItem[T]]: a stored value and the absolute instant it expires. *)
Record cacheItem (T : Type) := CacheItem { value : T; expiryTime : Time }.
Arguments CacheItem {T} _ _.
Arguments value {T} _.
Arguments expiryTime {T} _.

(** ** Variant A: fixed TTL, expired entries removed by [Get] *)
Module VariantA.
Section Cache.
Context {T : Type}.
(** [zero] is Go's zero value of [T] ([var zero T]). *)
Variable zero : T.

Record SimpleCache := MkCache {
  data : gmap string (cacheItem T);
  expiryDur : Duration
}.

Definition NewSimpleCache (expiryDur : Duration) : SimpleCache :=
  {| data := ∅; expiryDur := expiryDur |}.

(** [Set] (the name is reserved in Rocq, hence the underscore). *)
Definition Set_ (now : Time) (key : string) (v : T) (c : SimpleCache)
  : SimpleCache :=
  {| data := <[key := CacheItem v (Add now (expiryDur c))]> (data c);
     expiryDur := expiryDur c |}.

Definition Get (now : Time) (key : string) (c : SimpleCache)
  : (T * bool) * SimpleCache :=
  match data c !! key with
  | None => ((zero, false), c)
  | Some item =>
      if After now (expiryTime item)
      then ((zero, false),
            {| data := delete key (data c); expiryDur := expiryDur c |})
      else ((value item, true), c)
  end.

End Cache.
Arguments SimpleCache : clear implicits.
Arguments NewSimpleCache {T} _.
End VariantA.

(** ** Variant B: per-call TTL, expired entries removed by the janitor *)
Module VariantB.

(** Outcome of running Go code that may panic or block. *)
Inductive result (A : Type) : Type :=
| Ok (a : A)
| Panic (msg : string)
| Blocked.
Arguments Ok {A} _.
Arguments Panic {A} _.
Arguments Blocked {A}.

Definition bind {A B} (r : result A) (k : A -> result B) : result B :=
  match r with
  | Ok a => k a
  | Panic msg => Panic msg
  | Blocked => Blocked
  end.

Notation "'do' x <- r ; k" := (bind r (fun x => k))
  (at level 10, x name, r at level 100, k at level 200).

Section Cache.
Context {T : Type}.
(** [zero] is Go's zero value of [T] ([var zero T]). *)
Variable zero : T.

(** The struct.  [done] records whether the channel has been closed,
    [wg] is the WaitGroup counter and [closeOnce] whether the
    [sync.Once] has fired. *)
Record SimpleCache := MkCache {
  data : gmap string (cacheItem T);
  cleanupInterval : Duration;
  done : bool;
  wg : Z;
  closeOnce : bool
}.

Definition with_data (m : gmap string (cacheItem T)) (c : SimpleCache)
  : SimpleCache :=
  {| data := m; cleanupInterval := cleanupInterval c; done := done c;
     wg := wg c; closeOnce := closeOnce c |}.

(** [Set] (the name is reserved in Rocq, hence the underscore). *)
Definition Set_ (now : Time) (key : string) (expiryDur : Duration) (v : T)
    (c : SimpleCache) : SimpleCache :=
  with_data (<[key := CacheItem v (Add now expiryDur)]> (data c)) c.

Definition Get (now : Time) (key : string) (c : SimpleCache)
  : (T * bool) * SimpleCache :=
  match data c !! key with
  | None => ((zero, false), c)
  | Some item =>
      if After now (expiryTime item)
      then ((zero, false), c)
      else ((value item, true), c)
  end.

(** *** The janitor goroutine *)

(** Body of the [range] loop for one entry. *)
Definition sweep_entry (now : Time) (m : gmap string (cacheItem T))
    (e : string * cacheItem T) : gmap string (cacheItem T) :=
  if After now (expiryTime e.2) then delete e.1 m else m.

(** The [range] loop visiting the entries in the order [l].  The loop
    only deletes the key it is visiting, so it visits every entry the
    map had when the loop started, in an order Go leaves unspecified. *)
Definition sweep_over (now : Time) (l : list (string * cacheItem T))
    (m : gmap string (cacheItem T)) : gmap string (cacheItem T) :=
  foldl (sweep_entry now) m l.

(** One pass, visiting the entries in the map's own enumeration order. *)
Definition sweep (now : Time) (m : gmap string (cacheItem T))
  : gmap string (cacheItem T) :=
  sweep_over now (map_to_list m) m.

(** Where the janitor goroutine stands: started by [go c.janitor()] but
    not yet run, waiting in its [select], or returned. *)
Inductive goroutine : Type :=
| Spawned
| Selecting (ticker : Ticker)
| Exited.

(** The cache together with its goroutine. *)
Record World := MkWorld { cache : SimpleCache; janitor_pc : goroutine }.

Definition NewSimpleCache (cleanupInterval : Duration) : World :=
  {| cache := {| data := ∅; cleanupInterval := cleanupInterval;
                 done := false; wg := 1; closeOnce := false |};
     janitor_pc := Spawned |}.

(** [wg.Done()]: decrements the counter, panics below zero. *)
Definition wg_Done (c : SimpleCache) : result SimpleCache :=
  if wg c <=? 0 then Panic "sync: negative WaitGroup counter"
  else Ok {| data := data c; cleanupInterval := cleanupInterval c;
             done := done c; wg := wg c - 1; closeOnce := closeOnce c |}.

(** What the scheduler lets the janitor do next: run up to its [select],
    take the [ticker.C] branch at clock reading [now], or take the
    [c.done] branch. *)
Inductive jevent : Type :=
| Run
| Tick (now : Time)
| Quit.

(** One step of [janitor].  A branch that is not enabled (a tick after
    the ticker was stopped, a receive on the open [done] channel) leaves
    the world as it is. *)
Definition janitor (e : jevent) (w : World) : result World :=
  match janitor_pc w, e with
  | Spawned, Run =>
      match NewTicker (cleanupInterval (cache w)) with
      | None => Panic "non-positive interval for NewTicker"
      | Some tk => Ok {| cache := cache w; janitor_pc := Selecting tk |}
      end
  | Selecting tk, Tick now =>
      Ok {| cache := with_data (sweep now (data (cache w))) (cache w);
            janitor_pc := Selecting tk |}
  | Selecting tk, Quit =>
      if done (cache w)
      then do c <- wg_Done (cache w); Ok {| cache := c; janitor_pc := Exited |}
      else Ok w
  | _, _ => Ok w
  end.

(** *** Close *)

(** [close(c.done)]: closing a closed channel panics. *)
Definition close_done (c : SimpleCache) : result SimpleCache :=
  if done c then Panic "close of closed channel"
  else Ok {| data := data c; cleanupInterval := cleanupInterval c;
             done := true; wg := wg c; closeOnce := closeOnce c |}.

(** [c.closeOnce.Do(func() { close(c.done) })]. *)
Definition closeOnce_Do (c : SimpleCache) : result SimpleCache :=
  if closeOnce c then Ok c
  else do c' <- close_done c;
       Ok {| data := data c'; cleanupInterval := cleanupInterval c';
             done := done c'; wg := wg c'; closeOnce := true |}.

(** [c.wg.Wait()]: returns once the counter is zero.  While it waits the
    janitor takes the steps of [sched]; with the counter still positive
    and no step left the caller stays blocked. *)
Fixpoint wg_Wait (sched : list jevent) (w : World) : result World :=
  if wg (cache w) =? 0 then Ok w
  else match sched with
       | [] => Blocked
       | e :: sched' => do w' <- janitor e w; wg_Wait sched' w'
       end.

Definition Close (sched : list jevent) (w : World) : result World :=
  do c <- closeOnce_Do (cache w);
  wg_Wait sched {| cache := c; janitor_pc := janitor_pc w |}.

(** *** Sequential clients *)

(** A call of the client, or a step the scheduler gives the janitor
    between two calls. *)
Inductive op : Type :=
| OSet (now : Time) (key : string) (expiryDur : Duration) (v : T)
| OGet (now : Time) (key : string)
| OClose (sched : list jevent)
| OJanitor (e : jevent).

Definition step (o : op) (w : World) : result World :=
  match o with
  | OSet now key d v =>
      Ok {| cache := Set_ now key d v (cache w); janitor_pc := janitor_pc w |}
  | OGet now key =>
      Ok {| cache := snd (Get now key (cache w)); janitor_pc := janitor_pc w |}
  | OClose sched => Close sched w
  | OJanitor e => janitor e w
  end.

Fixpoint run (os : list op) (w : World) : result World :=
  match os with
  | [] => Ok w
  | o :: os' => do w' <- step o w; run os' w'
  end.

End Cache.
Arguments SimpleCache : clear implicits.
Arguments World : clear implicits.
Arguments op : clear implicits.
Arguments NewSimpleCache {T} _.
End VariantB.

(** What one sweep pass has to leave of an entry: nothing when the clock
    reading of the pass is after its expiry, the entry itself otherwise. *)
Definition survivor {T : Type} (now : Time) (o : option (cacheItem T))
  : option (cacheItem T) :=
  match o with
  | Some it => if After now (expiryTime it) then None else Some it
  | None => None
  end.

(** The worlds in which no step can panic: a positive cleanup interval,
    [done] closed exactly when the [sync.Once] has fired, and a WaitGroup
    counter of 1 until the janitor has returned, which it only does after
    [done] was closed. *)
Definition well_formed {T : Type} (w : VariantB.World T) : Prop :=
  0 < VariantB.cleanupInterval (VariantB.cache w) /\
  VariantB.done (VariantB.cache w) = VariantB.closeOnce (VariantB.cache w) /\
  match VariantB.janitor_pc w with
  | VariantB.Exited =>
      VariantB.wg (VariantB.cache w) = 0 /\
      VariantB.done (VariantB.cache w) = true
  | _ => VariantB.wg (VariantB.cache w) = 1
  end.

(** A schedule without ticks: only a tick of the janitor changes the
    mapping while [Close] waits. *)
Definition no_tick (sched : list VariantB.jevent) : Prop :=
  forall now, VariantB.Tick now ∉ sched.

(** ** Concrete caches *)

(** A cache of strings used in the examples below: key ["k"] written at
    clock reading 100 with a duration of 5 nanoseconds. *)
Definition exampleA : VariantA.SimpleCache string :=
  VariantA.Set_ 100 "k" "v" (VariantA.NewSimpleCache 5).

Definition exampleB : VariantB.SimpleCache string :=
  VariantB.Set_ 100 "k" 5 "v" (VariantB.cache (VariantB.NewSimpleCache 1)).

(** ** Client traces

    What a sequential client and the scheduler do to a cache over time: the
    calls of the tests ([Set], then [Get], then [Get] again later) and, for
    Variant B, the ticks of the janitor in between.  Variant A has one TTL
    for the whole cache and no janitor: it ignores the duration of an
    [ESet] and lets an [ETick] pass. *)
Inductive event (T : Type) : Type :=
| ESet (now : Time) (key : string) (d : Duration) (v : T)
| EGet (now : Time) (key : string)
| ETick (now : Time).
Arguments ESet {T} _ _ _ _.
Arguments EGet {T} _ _.
Arguments ETick {T} _.

(** The clock reading of an event. *)
Definition clock {T : Type} (e : event T) : Time :=
  match e with
  | ESet now _ _ _ => now
  | EGet now _ => now
  | ETick now => now
  end.

(** The readings of a trace never go back, starting from [t0]. *)
Fixpoint chronological {T : Type} (t0 : Time) (tr : list (event T)) : bool :=
  match tr with
  | [] => true
  | e :: tr' => (t0 <=? clock e) && chronological (clock e) tr'
  end.

(** Every [Set] of the trace asks for the duration [ttl]. *)
Definition uniform_ttl {T : Type} (ttl : Duration) (tr : list (event T))
  : bool :=
  forallb (fun e => match e with
                    | ESet _ _ d _ => d =? ttl
                    | _ => true
                    end) tr.

(** The trace never writes [k] / never calls [Get] on [k]. *)
Definition writes {T : Type} (k : string) (e : event T) : bool :=
  match e with
  | ESet _ key _ _ => bool_decide (key = k)
  | _ => false
  end.

Definition reads {T : Type} (k : string) (e : event T) : bool :=
  match e with
  | EGet _ key => bool_decide (key = k)
  | _ => false
  end.

Definition is_tick {T : Type} (e : event T) : bool :=
  match e with
  | ETick _ => true
  | _ => false
  end.

(** The trace with the janitor's ticks taken out. *)
Definition without_ticks {T : Type} (tr : list (event T)) : list (event T) :=
  List.filter (fun e => negb (is_tick e)) tr.

(** The call of Variant B, or the janitor step, an event stands for. *)
Definition op_of {T : Type} (e : event T) : VariantB.op T :=
  match e with
  | ESet now key d v => VariantB.OSet now key d v
  | EGet now key => VariantB.OGet now key
  | ETick now => VariantB.OJanitor (VariantB.Tick now)
  end.

(** Replaying a trace on Variant A: what each [Get] returned, in order,
    and the cache at the end. *)
Fixpoint observeA {T : Type} (zero : T) (tr : list (event T))
    (c : VariantA.SimpleCache T) : list (T * bool) * VariantA.SimpleCache T :=
  match tr with
  | [] => ([], c)
  | ESet now key _ v :: tr' => observeA zero tr' (VariantA.Set_ now key v c)
  | EGet now key :: tr' =>
      let r := VariantA.Get zero now key c in
      let rest := observeA zero tr' (snd r) in
      (fst r :: fst rest, snd rest)
  | ETick _ :: tr' => observeA zero tr' c
  end.

(** Replaying a trace on Variant B, each event through [VariantB.step]. *)
Fixpoint observeB {T : Type} (zero : T) (tr : list (event T))
    (w : VariantB.World T) : VariantB.result (list (T * bool) * VariantB.World T) :=
  match tr with
  | [] => VariantB.Ok ([], w)
  | e :: tr' =>
      VariantB.bind (VariantB.step zero (op_of e) w) (fun w' =>
      VariantB.bind (observeB zero tr' w') (fun rest =>
      VariantB.Ok
        (match e with
         | EGet now key =>
             fst (VariantB.Get zero now key (VariantB.cache w)) :: fst rest
         | _ => fst rest
         end, snd rest)))
  end.

(** The call of an operation list writes [k]. *)
Definition op_writes {T : Type} (k : string) (o : VariantB.op T) : bool :=
  match o with
  | VariantB.OSet _ key _ _ => bool_decide (key = k)
  | _ => false
  end.

(** Two mappings hold the same live entries at [now]: they differ at most
    in entries that have expired. *)
Definition same_live {T : Type} (now : Time)
    (m1 m2 : gmap string (cacheItem T)) : Prop :=
  forall k, survivor now (m1 !! k) = survivor now (m2 !! k).

(** The world a first [Close] leaves behind when the cache was built with
    a cleanup interval of 1 and nothing was stored. *)
Definition closedB : VariantB.World string :=
  VariantB.MkWorld (VariantB.MkCache ∅ 1 true 0 true) VariantB.Exited.

(** Two entries, expiring at 105 and 110. *)
Definition two_entries : gmap string (cacheItem string) :=
  <["a"%string := CacheItem "x"%string 105]>
    (<["b"%string := CacheItem "y"%string 110]> ∅).

(** The trace of the expiration test, with a tick of the janitor between
    the calls: a write at 100 for 10 nanoseconds, a read at once, a read
    of another key, and a read after the entry has expired. *)
Definition test_trace : list (event string) :=
  [ESet 100 "key1" 10 "value1"%string; EGet 100 "key1"; ETick 105;
   EGet 108 "key2"; ETick 112; EGet 115 "key1"].

(** A Variant B world holding [two_entries] whose janitor has not run
    yet, and the calls and janitor steps made on it in the examples. *)
Definition loadedB : VariantB.World string :=
  VariantB.MkWorld (VariantB.MkCache two_entries 5 false 1 false)
                   VariantB.Spawned.

Definition reading_ops : list (VariantB.op string) :=
  [VariantB.OGet 101 "a"; VariantB.OJanitor VariantB.Run;
   VariantB.OJanitor (VariantB.Tick 200); VariantB.OClose [VariantB.Quit]].

Definition writing_ops : list (VariantB.op string) :=
  [VariantB.OSet 100 "a" 5 "x"%string; VariantB.OJanitor VariantB.Run;
   VariantB.OGet 101 "a"].

(** [loadedB] after [reading_ops]: swept empty and closed. *)
Definition closedB_swept : VariantB.World string :=
  VariantB.MkWorld (VariantB.MkCache ∅ 5 true 0 true) VariantB.Exited.

(** A fresh cache with interval 5 after [writing_ops]: one entry, the
    janitor waiting in its [select]. *)
Definition writtenB : VariantB.World string :=
  VariantB.MkWorld
    (VariantB.MkCache (<["a"%string := CacheItem "x"%string 105]> ∅)
                      5 false 1 false)
    (VariantB.Selecting {| period := 5 |}).

(** A Variant A cache with a TTL of 10 holding the entry of [writtenB]. *)
Definition writtenA : VariantA.SimpleCache string :=
  VariantA.MkCache (<["a"%string := CacheItem "x"%string 105]> ∅) 10.

(** * Properties *)

(** ** The clock *)

Lemma After_spec t u : After t u = true <-> u < t.
Proof. unfold After. apply Z.ltb_lt. Qed.

Lemma After_false t u : After t u = false <-> t <= u.
Proof. unfold After. rewrite Z.ltb_ge. reflexivity. Qed.

Lemma After_irrefl t : After t t = false.
Proof. apply After_false. lia. Qed.

Lemma NewTicker_None d : NewTicker d = None <-> d <= 0.
Proof.
  unfold NewTicker. destruct (Z.leb_spec d 0); split; intros; try lia; congruence.
Qed.

(** ** Reading an entry (both variants) *)

Section Reading.
Context {T : Type}.
Variable zero : T.

Lemma getA_absent now key (c : VariantA.SimpleCache T) :
  VariantA.data c !! key = None ->
  VariantA.Get zero now key c = ((zero, false), c).
Proof. intros H. unfold VariantA.Get. rewrite H. reflexivity. Qed.

Lemma getA_live now key it (c : VariantA.SimpleCache T) :
  VariantA.data c !! key = Some it -> now <= expiryTime it ->
  VariantA.Get zero now key c = ((value it, true), c).
Proof.
  intros H Hle. unfold VariantA.Get. rewrite H.
  apply After_false in Hle. rewrite Hle. reflexivity.
Qed.

Lemma getA_expired now key it (c : VariantA.SimpleCache T) :
  VariantA.data c !! key = Some it -> expiryTime it < now ->
  VariantA.Get zero now key c =
    ((zero, false),
     VariantA.MkCache (delete key (VariantA.data c)) (VariantA.expiryDur c)).
Proof.
  intros H Hlt. unfold VariantA.Get. rewrite H.
  apply After_spec in Hlt. rewrite Hlt. reflexivity.
Qed.

Lemma getB_absent now key (c : VariantB.SimpleCache T) :
  VariantB.data c !! key = None ->
  VariantB.Get zero now key c = ((zero, false), c).
Proof. intros H. unfold VariantB.Get. rewrite H. reflexivity. Qed.

Lemma getB_live now key it (c : VariantB.SimpleCache T) :
  VariantB.data c !! key = Some it -> now <= expiryTime it ->
  VariantB.Get zero now key c = ((value it, true), c).
Proof.
  intros H Hle. unfold VariantB.Get. rewrite H.
  apply After_false in Hle. rewrite Hle. reflexivity.
Qed.

Lemma getB_expired now key it (c : VariantB.SimpleCache T) :
  VariantB.data c !! key = Some it -> expiryTime it < now ->
  VariantB.Get zero now key c = ((zero, false), c).
Proof.
  intros H Hlt. unfold VariantB.Get. rewrite H.
  apply After_spec in Hlt. rewrite Hlt. reflexivity.
Qed.

(** What [Set] leaves under the key it wrote. *)
Lemma setA_lookup now key v (c : VariantA.SimpleCache T) :
  VariantA.data (VariantA.Set_ now key v c) !! key
  = Some (CacheItem v (now + VariantA.expiryDur c)).
Proof. unfold VariantA.Set_, Add. simpl. apply lookup_insert_eq. Qed.

Lemma setB_lookup now key d v (c : VariantB.SimpleCache T) :
  VariantB.data (VariantB.Set_ now key d v c) !! key
  = Some (CacheItem v (now + d)).
Proof. unfold VariantB.Set_, Add. simpl. apply lookup_insert_eq. Qed.

(** C1 (amended). In both variants, [Get] at a time [t] other than the
    entry's [expiryTime] itself returns the stored value with [true]
    when [t] is strictly before [expiryTime], and the zero value with
    [false] when [t] is strictly after it. *)
Theorem get_liveness_strict
    (t : Time) (key : string) (it : cacheItem T)
    (cA : VariantA.SimpleCache T) (cB : VariantB.SimpleCache T) :
  VariantA.data cA !! key = Some it ->
  VariantB.data cB !! key = Some it ->
  t <> expiryTime it ->
  fst (VariantA.Get zero t key cA)
    = (if t <? expiryTime it then (value it, true) else (zero, false)) /\
  fst (VariantB.Get zero t key cB)
    = (if t <? expiryTime it then (value it, true) else (zero, false)).
Proof.
  intros HA HB Hne. destruct (Z.ltb_spec t (expiryTime it)) as [Hlt|Hge].
  - rewrite (getA_live t key it cA HA), (getB_live t key it cB HB) by lia.
    split; reflexivity.
  - rewrite (getA_expired t key it cA HA), (getB_expired t key it cB HB)
      by lia.
    split; reflexivity.
Qed.

(** C8 (amended). In Variant A, [Get] on an absent key returns
    not-found and leaves the cache as it is; on a key that is present
    and expired, with [now] strictly after [expiryTime], it deletes the
    entry and returns not-found; on a key that is present with [now]
    strictly before [expiryTime] it returns the stored value with
    [true] and leaves the cache as it is.  Whenever it returns
    not-found the key is absent from the mapping after the call. *)
Theorem getA_cases (now : Time) (key : string) (c : VariantA.SimpleCache T) :
  (forall it, VariantA.data c !! key = Some it -> now <> expiryTime it) ->
  VariantA.Get zero now key c
    = match VariantA.data c !! key with
      | None => ((zero, false), c)
      | Some it =>
          if now <? expiryTime it
          then ((value it, true), c)
          else ((zero, false),
                VariantA.MkCache (delete key (VariantA.data c))
                                 (VariantA.expiryDur c))
      end /\
  (snd (fst (VariantA.Get zero now key c)) = false ->
   VariantA.data (snd (VariantA.Get zero now key c)) !! key = None).
Proof.
  intros Hne. destruct (VariantA.data c !! key) as [it|] eqn:Hin.
  - specialize (Hne it eq_refl).
    destruct (Z.ltb_spec now (expiryTime it)) as [Hlt|Hge].
    + rewrite (getA_live now key it c Hin) by lia. split; [reflexivity|].
      simpl. discriminate.
    + rewrite (getA_expired now key it c Hin) by lia. split; [reflexivity|].
      intros _. simpl. apply lookup_delete_eq.
  - rewrite (getA_absent now key c Hin). split; [reflexivity|].
    intros _. exact Hin.
Qed.

Lemma getB_snd now key (c : VariantB.SimpleCache T) :
  snd (VariantB.Get zero now key c) = c.
Proof.
  unfold VariantB.Get. destruct (VariantB.data c !! key) as [it|];
    [destruct (After now (expiryTime it))|]; reflexivity.
Qed.

(** C6. In Variant B, [Get] never changes the cache: whatever the key,
    the clock reading and the state (key absent, live or expired), the
    cache after the call is the cache before it, and so is the world a
    client observes. *)
Theorem getB_does_not_mutate :
  forall (now : Time) (key : string) (c : VariantB.SimpleCache T),
    snd (VariantB.Get zero now key c) = c /\
    VariantB.data (snd (VariantB.Get zero now key c)) = VariantB.data c /\
    forall pc,
      VariantB.step zero (VariantB.OGet now key) (VariantB.MkWorld c pc)
      = VariantB.Ok (VariantB.MkWorld c pc).
Proof.
  intros now key c.
  pose proof (getB_snd now key c) as H.
  split; [exact H|]. split; [rewrite H; reflexivity|].
  intros pc. simpl. rewrite H. reflexivity.
Qed.

End Reading.

(** ** Writing an entry, then reading it *)

Section Writing.
Context {T : Type}.
Variable zero : T.

(** [Set] followed by [Get] of the same key, [elapsed] nanoseconds
    later on the clock: the value comes back as long as the clock is not
    after [now + duration]. *)
Lemma setA_getA now elapsed key v (c : VariantA.SimpleCache T) :
  elapsed <= VariantA.expiryDur c ->
  fst (VariantA.Get zero (now + elapsed) key (VariantA.Set_ now key v c))
  = (v, true).
Proof.
  intros H. rewrite (getA_live zero _ key _ _ (setA_lookup now key v c)).
  - reflexivity.
  - simpl. lia.
Qed.

Lemma setB_getB now elapsed key d v (c : VariantB.SimpleCache T) :
  elapsed <= d ->
  fst (VariantB.Get zero (now + elapsed) key (VariantB.Set_ now key d v c))
  = (v, true).
Proof.
  intros H. rewrite (getB_live zero _ key _ _ (setB_lookup now key d v c)).
  - reflexivity.
  - simpl. lia.
Qed.

Lemma setA_getA_late now elapsed key v (c : VariantA.SimpleCache T) :
  VariantA.expiryDur c < elapsed ->
  fst (VariantA.Get zero (now + elapsed) key (VariantA.Set_ now key v c))
  = (zero, false).
Proof.
  intros H. rewrite (getA_expired zero _ key _ _ (setA_lookup now key v c)).
  - reflexivity.
  - simpl. lia.
Qed.

Lemma setB_getB_late now elapsed key d v (c : VariantB.SimpleCache T) :
  d < elapsed ->
  fst (VariantB.Get zero (now + elapsed) key (VariantB.Set_ now key d v c))
  = (zero, false).
Proof.
  intros H. rewrite (getB_expired zero _ key _ _ (setB_lookup now key d v c)).
  - reflexivity.
  - simpl. lia.
Qed.

(** A later [Set] of the same key hides the earlier one entirely. *)
Lemma setA_setA t1 t2 key v1 v2 (c : VariantA.SimpleCache T) :
  VariantA.Set_ t2 key v2 (VariantA.Set_ t1 key v1 c)
  = VariantA.Set_ t2 key v2 c.
Proof. unfold VariantA.Set_. simpl. rewrite insert_insert_eq. reflexivity. Qed.

Lemma setB_setB t1 t2 key d1 d2 v1 v2 (c : VariantB.SimpleCache T) :
  VariantB.Set_ t2 key d2 v2 (VariantB.Set_ t1 key d1 v1 c)
  = VariantB.Set_ t2 key d2 v2 c.
Proof.
  unfold VariantB.Set_, VariantB.with_data. simpl.
  rewrite insert_insert_eq. reflexivity.
Qed.

(** C3. With a positive TTL (Variant A) or a positive per-call duration
    (Variant B), [Set] of a key followed by [Get] of it before the
    duration has elapsed on the clock, in particular at the same clock
    reading, returns the value written and [true]. *)
Theorem set_get_roundtrip
    (now eA eB : Z) (key : string) (v : T) (d : Duration)
    (cA : VariantA.SimpleCache T) (cB : VariantB.SimpleCache T) :
  0 < VariantA.expiryDur cA -> 0 <= eA < VariantA.expiryDur cA ->
  0 < d -> 0 <= eB < d ->
  fst (VariantA.Get zero (now + eA) key (VariantA.Set_ now key v cA))
    = (v, true) /\
  fst (VariantA.Get zero now key (VariantA.Set_ now key v cA))
    = (v, true) /\
  fst (VariantB.Get zero (now + eB) key (VariantB.Set_ now key d v cB))
    = (v, true) /\
  fst (VariantB.Get zero now key (VariantB.Set_ now key d v cB))
    = (v, true).
Proof.
  intros HA HeA Hd HeB.
  pose proof (setA_getA now 0 key v cA) as A0.
  pose proof (setB_getB now 0 key d v cB) as B0.
  rewrite Z.add_0_r in A0, B0.
  repeat split.
  - apply setA_getA. lia.
  - apply A0. lia.
  - apply setB_getB. lia.
  - apply B0. lia.
Qed.

(** C7 (amended). [Set] is an unconditional upsert and the later write
    wins: after [Set] of [v1] and then [Set] of [v2] under the same key,
    whatever the clock readings and the durations, the cache is the one
    the second [Set] alone would have produced, and the entry holds [v2]
    and expires at the second write's [now + duration] whatever the first
    write's expiry was.  When the later write's TTL or duration is
    positive, [Get] of the key before that duration has elapsed on the
    clock returns [v2] and [true]. *)
Theorem set_overwrite
    (t1 t2 : Time) (key : string) (v1 v2 : T) (d1 d2 : Duration)
    (cA : VariantA.SimpleCache T) (cB : VariantB.SimpleCache T) :
  let cA' := VariantA.Set_ t2 key v2 (VariantA.Set_ t1 key v1 cA) in
  let cB' := VariantB.Set_ t2 key d2 v2 (VariantB.Set_ t1 key d1 v1 cB) in
  cA' = VariantA.Set_ t2 key v2 cA /\
  VariantA.data cA' !! key
    = Some (CacheItem v2 (t2 + VariantA.expiryDur cA)) /\
  cB' = VariantB.Set_ t2 key d2 v2 cB /\
  VariantB.data cB' !! key = Some (CacheItem v2 (t2 + d2)) /\
  (forall e : Z,
      0 < VariantA.expiryDur cA -> 0 <= e < VariantA.expiryDur cA ->
      fst (VariantA.Get zero (t2 + e) key cA') = (v2, true)) /\
  (forall e : Z,
      0 < d2 -> 0 <= e < d2 ->
      fst (VariantB.Get zero (t2 + e) key cB') = (v2, true)).
Proof.
  intros cA' cB'. subst cA' cB'.
  rewrite setA_setA, setB_setB.
  split; [reflexivity|]. split; [apply setA_lookup|].
  split; [reflexivity|]. split; [apply setB_lookup|].
  split; intros e Hd He.
  - apply setA_getA. lia.
  - apply setB_getB. lia.
Qed.

(** A non-positive duration hides the entry from every later clock
    reading, and a negative one from the reading of the write too. *)
Lemma set_get_nonpositive
    (now elapsed : Z) (key : string) (v : T) (d : Duration)
    (cA : VariantA.SimpleCache T) (cB : VariantB.SimpleCache T) :
  VariantA.expiryDur cA <= 0 -> d <= 0 -> 0 <= elapsed ->
  (0 < elapsed \/ (VariantA.expiryDur cA < 0 /\ d < 0)) ->
  fst (VariantA.Get zero (now + elapsed) key (VariantA.Set_ now key v cA))
    = (zero, false) /\
  fst (VariantB.Get zero (now + elapsed) key (VariantB.Set_ now key d v cB))
    = (zero, false).
Proof.
  intros HA HB He Hcase. split.
  - apply setA_getA_late. lia.
  - apply setB_getB_late. lia.
Qed.

End Writing.

(** ** The janitor's sweep (Variant B) *)

Section Sweep.
Context {T : Type}.
Implicit Types (m : gmap string (cacheItem T)) (it : cacheItem T).
Implicit Types (l : list (string * cacheItem T)) (k : string).

Lemma sweep_entry_lookup_None now m e k :
  m !! k = None -> VariantB.sweep_entry now m e !! k = None.
Proof.
  intros H. unfold VariantB.sweep_entry.
  destruct (After now (expiryTime e.2)); [|exact H].
  destruct (decide (e.1 = k)) as [->|Hne].
  - apply lookup_delete_eq.
  - rewrite lookup_delete_ne by exact Hne. exact H.
Qed.

Lemma sweep_over_lookup_None now l : forall m k,
  m !! k = None -> VariantB.sweep_over now l m !! k = None.
Proof.
  induction l as [|e l IH]; intros m k H; simpl; [exact H|].
  apply IH. apply sweep_entry_lookup_None. exact H.
Qed.

(** A key none of whose visited entries is expired keeps its binding. *)
Lemma sweep_over_keeps now l : forall m k,
  (forall it, (k, it) ∈ l -> After now (expiryTime it) = false) ->
  VariantB.sweep_over now l m !! k = m !! k.
Proof.
  induction l as [|[k' it'] l IH]; intros m k H; simpl; [reflexivity|].
  rewrite IH.
  - unfold VariantB.sweep_entry. simpl.
    destruct (After now (expiryTime it')) eqn:E; [|reflexivity].
    destruct (decide (k' = k)) as [->|Hne].
    + rewrite (H it') in E; [discriminate | left].
    + apply lookup_delete_ne. exact Hne.
  - intros it Hin. apply H. right. exact Hin.
Qed.

(** A key visited with an expired entry is gone at the end of the pass. *)
Lemma sweep_over_drops now l : forall m k it,
  (k, it) ∈ l -> After now (expiryTime it) = true ->
  VariantB.sweep_over now l m !! k = None.
Proof.
  induction l as [|e l IH]; intros m k it Hin Hexp; simpl.
  - inversion Hin.
  - apply elem_of_cons in Hin as [<-|Hin].
    + apply sweep_over_lookup_None. unfold VariantB.sweep_entry. simpl.
      rewrite Hexp. apply lookup_delete_eq.
    + apply (IH _ k it Hin Hexp).
Qed.

(** The pass computes [survivor] pointwise, in whatever order it visits
    the entries of the map. *)
Lemma sweep_over_lookup now l m k :
  l ≡ₚ map_to_list m ->
  VariantB.sweep_over now l m !! k = survivor now (m !! k).
Proof.
  intros Hl.
  assert (Hin : forall it, (k, it) ∈ l <-> m !! k = Some it).
  { intros it. rewrite Hl. apply elem_of_map_to_list. }
  destruct (m !! k) as [it|] eqn:Hk; simpl.
  - destruct (After now (expiryTime it)) eqn:E.
    + apply (sweep_over_drops now l m k it); [apply Hin; reflexivity | exact E].
    + rewrite sweep_over_keeps; [exact Hk|].
      intros it' Hit'. apply Hin in Hit'. congruence.
  - apply sweep_over_lookup_None. exact Hk.
Qed.

Lemma sweep_over_order now l m :
  l ≡ₚ map_to_list m -> VariantB.sweep_over now l m = VariantB.sweep now m.
Proof.
  intros Hl. apply map_eq. intros k. unfold VariantB.sweep.
  rewrite (sweep_over_lookup now l m k Hl).
  rewrite (sweep_over_lookup now (map_to_list m) m k); reflexivity.
Qed.

(** C5. In Variant B one sweep pass at clock reading [now], in whatever
    order the [range] loop visits the entries, deletes exactly the
    entries whose [expiryTime] has passed ([now] after [expiryTime]) and
    leaves every other entry, value and expiry, as it was.  Hence no
    entry with an expiry earlier than [now] remains, and when every
    entry has expired the map is empty, its entry count 0, with no
    [Get] involved.  A tick of the janitor performs exactly this pass
    on the cache and touches nothing else. *)
Theorem janitor_sweep
    (now : Time) (m : gmap string (cacheItem T))
    (l : list (string * cacheItem T)) :
  l ≡ₚ map_to_list m ->
  (forall k, VariantB.sweep_over now l m !! k
             = match m !! k with
               | Some it => if After now (expiryTime it) then None else Some it
               | None => None
               end) /\
  (forall k it, VariantB.sweep_over now l m !! k = Some it ->
                m !! k = Some it /\ ~ expiryTime it < now) /\
  (forall k it, m !! k = Some it -> expiryTime it < now ->
                VariantB.sweep_over now l m !! k = None) /\
  ((forall k it, m !! k = Some it -> expiryTime it < now) ->
   VariantB.sweep_over now l m = ∅ /\
   size (VariantB.sweep_over now l m) = 0%nat) /\
  (forall c tk, VariantB.data c = m ->
     VariantB.janitor (VariantB.Tick now)
       (VariantB.MkWorld c (VariantB.Selecting tk))
     = VariantB.Ok
         (VariantB.MkWorld
            (VariantB.MkCache (VariantB.sweep_over now l m)
               (VariantB.cleanupInterval c) (VariantB.done c)
               (VariantB.wg c) (VariantB.closeOnce c))
            (VariantB.Selecting tk))).
Proof.
  intros Hl.
  pose proof (fun k => sweep_over_lookup now l m k Hl) as Hlk.
  assert (Hempty : (forall k it, m !! k = Some it -> expiryTime it < now) ->
                   VariantB.sweep_over now l m = ∅).
  { intros Hall. apply map_eq. intros k. rewrite Hlk, lookup_empty.
    destruct (m !! k) as [it|] eqn:Hk; simpl; [|reflexivity].
    apply Hall, After_spec in Hk. rewrite Hk. reflexivity. }
  split; [|split; [|split; [|split]]].
  - exact Hlk.
  - intros k it. rewrite Hlk. destruct (m !! k) as [it'|]; simpl; [|discriminate].
    destruct (After now (expiryTime it')) eqn:E; [discriminate|].
    intros [= ->]. split; [reflexivity|]. apply After_false in E. lia.
  - intros k it Hk Hlt. rewrite Hlk, Hk. simpl.
    apply After_spec in Hlt. rewrite Hlt. reflexivity.
  - intros Hall. rewrite (Hempty Hall). split; [reflexivity|].
    apply map_size_empty.
  - intros c tk <-. unfold VariantB.janitor. simpl.
    rewrite (sweep_over_order now l _ Hl). reflexivity.
Qed.

End Sweep.

(** ** Lifecycle of the janitor and [Close] (Variant B) *)

Section Lifecycle.
Context {T : Type}.
Variable zero : T.
Implicit Types (w : VariantB.World T) (c : VariantB.SimpleCache T).

Lemma world_eta w :
  VariantB.MkWorld (VariantB.cache w) (VariantB.janitor_pc w) = w.
Proof. destruct w; reflexivity. Qed.

(** The janitor never touches the [sync.Once]. *)
Lemma janitor_closeOnce e w w' :
  VariantB.janitor e w = VariantB.Ok w' ->
  VariantB.closeOnce (VariantB.cache w')
  = VariantB.closeOnce (VariantB.cache w).
Proof.
  unfold VariantB.janitor.
  destruct (VariantB.janitor_pc w) as [|tk|], e as [|now|]; simpl;
    try (intros [= <-]; reflexivity).
  - destruct (NewTicker _); [intros [= <-]; reflexivity | discriminate].
  - destruct (VariantB.done (VariantB.cache w));
      [|intros [= <-]; reflexivity].
    unfold VariantB.wg_Done.
    destruct (VariantB.wg (VariantB.cache w) <=? 0); simpl;
      [discriminate | intros [= <-]; reflexivity].
Qed.

(** [wg.Wait()] only returns with the counter at zero, and then the
    [sync.Once] is as it was when the wait began. *)
Lemma wg_Wait_returns sched : forall w w',
  VariantB.wg_Wait sched w = VariantB.Ok w' ->
  VariantB.wg (VariantB.cache w') = 0 /\
  VariantB.closeOnce (VariantB.cache w')
  = VariantB.closeOnce (VariantB.cache w).
Proof.
  induction sched as [|e sched IH]; intros w w'; simpl.
  - destruct (Z.eqb_spec (VariantB.wg (VariantB.cache w)) 0) as [E|E];
      [intros [= <-]; auto | discriminate].
  - destruct (Z.eqb_spec (VariantB.wg (VariantB.cache w)) 0) as [E|E];
      [intros [= <-]; auto |].
    destruct (VariantB.janitor e w) as [w1| |] eqn:J; simpl;
      try discriminate.
    intros H. destruct (IH _ _ H) as [H0 H1]. split; [exact H0|].
    rewrite H1. apply (janitor_closeOnce e w w1 J).
Qed.

Lemma wg_Wait_zero sched w :
  VariantB.wg (VariantB.cache w) = 0 ->
  VariantB.wg_Wait sched w = VariantB.Ok w.
Proof. intros H. destruct sched; simpl; rewrite H; reflexivity. Qed.

Lemma closeOnce_Do_fired c c' :
  VariantB.closeOnce_Do c = VariantB.Ok c' -> VariantB.closeOnce c' = true.
Proof.
  unfold VariantB.closeOnce_Do, VariantB.close_done.
  destruct (VariantB.closeOnce c) eqn:E; [intros [= <-]; exact E|].
  destruct (VariantB.done c); simpl; [discriminate | intros [= <-]; reflexivity].
Qed.

Lemma Close_returns sched w w' :
  VariantB.Close sched w = VariantB.Ok w' ->
  VariantB.wg (VariantB.cache w') = 0 /\
  VariantB.closeOnce (VariantB.cache w') = true.
Proof.
  unfold VariantB.Close.
  destruct (VariantB.closeOnce_Do (VariantB.cache w)) as [c| |] eqn:E;
    simpl; try discriminate.
  intros H. apply wg_Wait_returns in H as [H0 H1]. split; [exact H0|].
  rewrite H1. simpl. apply (closeOnce_Do_fired _ _ E).
Qed.

(** C9. In Variant B a second [Close] is safe and idempotent: once a
    first [Close] has returned, calling [Close] again returns at once,
    without waiting for any step of the janitor and whatever steps the
    scheduler offers, does not panic, and leaves the cache and its
    goroutine exactly as the first call left them. *)
Theorem close_twice
    (sched : list VariantB.jevent) (w w1 : VariantB.World T) :
  VariantB.Close sched w = VariantB.Ok w1 ->
  VariantB.Close [] w1 = VariantB.Ok w1 /\
  (forall sched', VariantB.Close sched' w1 = VariantB.Ok w1).
Proof.
  intros H. apply Close_returns in H as [Hwg Honce].
  assert (Hall : forall sched', VariantB.Close sched' w1 = VariantB.Ok w1).
  { intros sched'. unfold VariantB.Close, VariantB.closeOnce_Do.
    rewrite Honce. simpl. rewrite world_eta. apply wg_Wait_zero, Hwg. }
  split; [apply Hall | exact Hall].
Qed.

Lemma janitor_data e w w' :
  (forall now, e <> VariantB.Tick now) ->
  VariantB.janitor e w = VariantB.Ok w' ->
  VariantB.data (VariantB.cache w') = VariantB.data (VariantB.cache w).
Proof.
  intros Hne. unfold VariantB.janitor.
  destruct (VariantB.janitor_pc w) as [|tk|], e as [|now|]; simpl;
    try (intros [= <-]; reflexivity);
    try (exfalso; apply (Hne now); reflexivity).
  - destruct (NewTicker _); [intros [= <-]; reflexivity | discriminate].
  - destruct (VariantB.done (VariantB.cache w));
      [|intros [= <-]; reflexivity].
    unfold VariantB.wg_Done.
    destruct (VariantB.wg (VariantB.cache w) <=? 0); simpl;
      [discriminate | intros [= <-]; reflexivity].
Qed.

Lemma wg_Wait_data sched : forall w w',
  no_tick sched ->
  VariantB.wg_Wait sched w = VariantB.Ok w' ->
  VariantB.data (VariantB.cache w') = VariantB.data (VariantB.cache w).
Proof.
  induction sched as [|e sched IH]; intros w w' Hnt; simpl.
  - destruct (VariantB.wg (VariantB.cache w) =? 0);
      [intros [= <-]; reflexivity | discriminate].
  - destruct (VariantB.wg (VariantB.cache w) =? 0);
      [intros [= <-]; reflexivity |].
    destruct (VariantB.janitor e w) as [w2| |] eqn:J; simpl;
      try discriminate.
    intros H. rewrite (IH w2 w').
    + apply (janitor_data e w w2); [|exact J].
      intros now ->. apply (Hnt now). left.
    + intros now Hin. apply (Hnt now). right. exact Hin.
    + exact H.
Qed.

Lemma Close_data sched w w' :
  no_tick sched ->
  VariantB.Close sched w = VariantB.Ok w' ->
  VariantB.data (VariantB.cache w') = VariantB.data (VariantB.cache w).
Proof.
  intros Hnt. unfold VariantB.Close, VariantB.closeOnce_Do, VariantB.close_done.
  destruct (VariantB.closeOnce (VariantB.cache w)); simpl.
  - intros H. apply (wg_Wait_data sched _ _ Hnt) in H. exact H.
  - destruct (VariantB.done (VariantB.cache w)); simpl; [discriminate|].
    intros H. apply (wg_Wait_data sched _ _ Hnt) in H. exact H.
Qed.

(** [Set] and [Get] read and write the mapping only. *)
Lemma setB_getB_data_only now key d v c c' :
  VariantB.data c = VariantB.data c' ->
  VariantB.data (VariantB.Set_ now key d v c)
    = VariantB.data (VariantB.Set_ now key d v c') /\
  forall t k, fst (VariantB.Get zero t k c) = fst (VariantB.Get zero t k c').
Proof.
  intros Hc. split.
  - unfold VariantB.Set_. simpl. rewrite Hc. reflexivity.
  - intros t k. unfold VariantB.Get. rewrite Hc.
    destruct (VariantB.data c' !! k) as [it|]; [|reflexivity].
    destruct (After t (expiryTime it)); reflexivity.
Qed.

(** C10. In Variant B [Set] and [Get] do not look at the lifecycle of
    the cache.  After [Close] has returned, [Set] with a positive
    duration followed by [Get] of the key within that duration returns
    the value and [true]; both calls complete without panicking or
    blocking and leave [done], the WaitGroup and the [sync.Once] as
    [Close] left them.  They act on the mapping exactly as on any cache
    holding the same mapping, and the cache before [Close] is one: when
    the janitor swept nothing while [Close] waited, [Get] returns and
    [Set] stores after [Close] what they would have before it. *)
Theorem set_get_after_close
    (sched : list VariantB.jevent) (w w1 : VariantB.World T)
    (now e : Z) (key : string) (d : Duration) (v : T) :
  VariantB.Close sched w = VariantB.Ok w1 ->
  0 < d -> 0 <= e <= d ->
  let c0 := VariantB.cache w in
  let c1 := VariantB.cache w1 in
  fst (VariantB.Get zero (now + e) key (VariantB.Set_ now key d v c1))
    = (v, true) /\
  VariantB.run zero [VariantB.OSet now key d v; VariantB.OGet (now + e) key] w1
    = VariantB.Ok (VariantB.MkWorld (VariantB.Set_ now key d v c1)
                                    (VariantB.janitor_pc w1)) /\
  (VariantB.done (VariantB.Set_ now key d v c1) = VariantB.done c1 /\
   VariantB.wg (VariantB.Set_ now key d v c1) = VariantB.wg c1 /\
   VariantB.closeOnce (VariantB.Set_ now key d v c1) = VariantB.closeOnce c1) /\
  (forall c, VariantB.data c = VariantB.data c1 ->
     VariantB.data (VariantB.Set_ now key d v c)
       = VariantB.data (VariantB.Set_ now key d v c1) /\
     forall t k, fst (VariantB.Get zero t k c)
                 = fst (VariantB.Get zero t k c1)) /\
  (no_tick sched ->
     VariantB.data (VariantB.Set_ now key d v c1)
       = VariantB.data (VariantB.Set_ now key d v c0) /\
     forall t k, fst (VariantB.Get zero t k c1)
                 = fst (VariantB.Get zero t k c0)).
Proof.
  intros HClose Hd He c0 c1. split; [apply setB_getB; lia|].
  split; [|split; [|split]].
  - simpl. rewrite getB_snd. reflexivity.
  - repeat split.
  - intros c Hc. apply setB_getB_data_only. exact Hc.
  - intros Hnt. apply setB_getB_data_only.
    apply (Close_data sched w w1 Hnt HClose).
Qed.

(** *** No panic under a positive cleanup interval *)

Lemma well_formed_new (i : Duration) :
  0 < i -> well_formed (VariantB.NewSimpleCache (T:=T) i).
Proof. intros H. unfold well_formed. simpl. auto. Qed.

Lemma janitor_safe e w :
  well_formed w ->
  exists w', VariantB.janitor e w = VariantB.Ok w' /\ well_formed w'.
Proof.
  destruct w as [c pc]. unfold well_formed, VariantB.janitor. simpl.
  intros (Hi & Hd & Hpc).
  destruct pc as [|tk|], e as [|now|]; simpl;
    try (eexists; split; [reflexivity | simpl; auto]).
  - destruct (NewTicker (VariantB.cleanupInterval c)) as [tk|] eqn:E.
    + eexists; split; [reflexivity | simpl; auto].
    + apply NewTicker_None in E. lia.
  - destruct (VariantB.done c) eqn:D.
    + unfold VariantB.wg_Done. rewrite Hpc. simpl.
      eexists; split; [reflexivity|]. simpl.
      repeat split; try lia; congruence.
    + eexists; split; [reflexivity|]. simpl. rewrite D. auto.
Qed.

Lemma wg_Wait_safe sched : forall w,
  well_formed w ->
  (forall msg, VariantB.wg_Wait sched w <> VariantB.Panic msg) /\
  (forall w', VariantB.wg_Wait sched w = VariantB.Ok w' -> well_formed w').
Proof.
  induction sched as [|e sched IH]; intros w Hw; simpl.
  - destruct (VariantB.wg (VariantB.cache w) =? 0).
    + split; [discriminate | intros w' [= <-]; exact Hw].
    + split; discriminate.
  - destruct (VariantB.wg (VariantB.cache w) =? 0).
    + split; [discriminate | intros w' [= <-]; exact Hw].
    + destruct (janitor_safe e w Hw) as (w2 & -> & Hw2). simpl.
      apply IH. exact Hw2.
Qed.

Lemma Close_safe sched w :
  well_formed w ->
  (forall msg, VariantB.Close sched w <> VariantB.Panic msg) /\
  (forall w', VariantB.Close sched w = VariantB.Ok w' -> well_formed w').
Proof.
  destruct w as [c pc]. intros (Hi & Hd & Hpc). simpl in *.
  unfold VariantB.Close, VariantB.closeOnce_Do, VariantB.close_done. simpl.
  destruct (VariantB.closeOnce c) eqn:Once; simpl.
  - apply wg_Wait_safe. unfold well_formed. simpl. rewrite Once. auto.
  - rewrite Hd. simpl. apply wg_Wait_safe. unfold well_formed. simpl.
    repeat split; [exact Hi|].
    destruct pc; [exact Hpc | exact Hpc | destruct Hpc; congruence].
Qed.

Lemma step_safe o w :
  well_formed w ->
  (forall msg, VariantB.step zero o w <> VariantB.Panic msg) /\
  (forall w', VariantB.step zero o w = VariantB.Ok w' -> well_formed w').
Proof.
  intros Hw. destruct o as [now key d v|now key|sched|e]; simpl.
  - split; [discriminate|]. intros w' [= <-]. exact Hw.
  - split; [discriminate|]. intros w' [= <-]. rewrite getB_snd.
    rewrite world_eta. exact Hw.
  - apply Close_safe. exact Hw.
  - destruct (janitor_safe e w Hw) as (w2 & -> & Hw2).
    split; [discriminate|]. intros w' [= <-]. exact Hw2.
Qed.

Lemma run_safe os : forall w,
  well_formed w -> forall msg, VariantB.run zero os w <> VariantB.Panic msg.
Proof.
  induction os as [|o os IH]; intros w Hw msg; simpl; [discriminate|].
  destruct (step_safe o w Hw) as [Hnp Hok].
  destruct (VariantB.step zero o w) as [w'|m|] eqn:E; simpl.
  - apply IH. apply Hok. reflexivity.
  - exfalso. apply (Hnp m). reflexivity.
  - discriminate.
Qed.

(** X10. With a positive cleanup interval no sequence of calls and janitor
    steps panics, whatever the durations passed to [Set]. *)
Lemma positive_interval_never_panics (i : Duration) os msg :
  0 < i ->
  VariantB.run zero os (VariantB.NewSimpleCache i) <> VariantB.Panic msg.
Proof. intros Hi. apply run_safe, well_formed_new, Hi. Qed.

Lemma wg_Wait_completes w :
  well_formed w -> VariantB.done (VariantB.cache w) = true ->
  exists w', VariantB.wg_Wait [VariantB.Run; VariantB.Quit] w = VariantB.Ok w'.
Proof.
  destruct w as [c pc]. intros (Hi & Hd & Hpc) Hdone. simpl in *.
  assert (HT : exists tk, NewTicker (VariantB.cleanupInterval c) = Some tk).
  { destruct (NewTicker _) eqn:E; [eauto|]. apply NewTicker_None in E. lia. }
  destruct HT as [tk' HT].
  destruct pc as [|tk|]; [| |destruct Hpc as [Hpc _]];
    unfold VariantB.wg_Wait, VariantB.janitor, VariantB.wg_Done; simpl;
    rewrite ?HT; simpl; rewrite ?Hpc, ?Hdone; simpl;
    rewrite ?Hpc, ?Hdone; simpl; eauto.
Qed.

(** In a well-formed world [Close] returns as soon as the janitor has
    been scheduled and has taken the [done] branch of its [select]. *)
Lemma Close_completes w :
  well_formed w ->
  exists w', VariantB.Close [VariantB.Run; VariantB.Quit] w = VariantB.Ok w'.
Proof.
  destruct w as [c pc]. intros (Hi & Hd & Hpc). simpl in *.
  unfold VariantB.Close, VariantB.closeOnce_Do, VariantB.close_done.
  cbn [VariantB.cache VariantB.janitor_pc].
  destruct (VariantB.closeOnce c) eqn:Once; cbn [VariantB.bind].
  - apply wg_Wait_completes; [|exact Hd].
    unfold well_formed. simpl. rewrite Once. auto.
  - rewrite Hd. cbn [VariantB.bind]. apply wg_Wait_completes; [|reflexivity].
    unfold well_formed. simpl. repeat split; [exact Hi|].
    destruct pc; [exact Hpc | exact Hpc | destruct Hpc; congruence].
Qed.

(** C2: the code at the failing inputs.  Constructing the Variant B
    cache with a zero or negative cleanup interval starts a janitor
    whose first action, [time.NewTicker], panics; nothing recovers the
    panic, so the first time the goroutine is scheduled, between two
    calls or while [Close] waits for it, the process dies. *)
Theorem nonpositive_interval_panics (i : Duration) :
  i <= 0 ->
  VariantB.janitor VariantB.Run (VariantB.NewSimpleCache (T:=T) i)
    = VariantB.Panic "non-positive interval for NewTicker" /\
  (forall os, VariantB.run zero (VariantB.OJanitor VariantB.Run :: os)
                (VariantB.NewSimpleCache i)
              = VariantB.Panic "non-positive interval for NewTicker") /\
  (forall sched, VariantB.Close (VariantB.Run :: sched)
                   (VariantB.NewSimpleCache (T:=T) i)
                 = VariantB.Panic "non-positive interval for NewTicker").
Proof.
  intros Hi. apply NewTicker_None in Hi.
  assert (J : VariantB.janitor VariantB.Run (VariantB.NewSimpleCache (T:=T) i)
              = VariantB.Panic "non-positive interval for NewTicker").
  { unfold VariantB.janitor. simpl. rewrite Hi. reflexivity. }
  split; [exact J|]. split.
  - intros os. simpl. rewrite J. reflexivity.
  - intros sched. unfold VariantB.Close. simpl.
    change (VariantB.janitor VariantB.Run (VariantB.NewSimpleCache (T:=T) i))
      with (VariantB.janitor VariantB.Run
              {| VariantB.cache := VariantB.cache (VariantB.NewSimpleCache (T:=T) i);
                 VariantB.janitor_pc := VariantB.Spawned |}) in J.
    unfold VariantB.janitor in *. simpl in *. rewrite Hi. reflexivity.
Qed.

End Lifecycle.

Lemma get_liveness_strict_witness :
  fst (VariantA.Get ""%string 106 "k" exampleA) = (""%string, false) /\
  fst (VariantB.Get ""%string 106 "k" exampleB) = (""%string, false).
Proof.
  apply (get_liveness_strict ""%string 106 "k" (CacheItem "v"%string 105)
           exampleA exampleB).
  - reflexivity.
  - reflexivity.
  - simpl. lia.
Defined.

(** C1 as stated fails at the instant [t = expiryTime]: the entry written
    at 100 with duration 5 expires at 105, and [Get] at 105 still returns
    it in both variants, where the claim asks for the zero value and
    [false] (105 >= 105). *)
Lemma get_at_expiry_instant_returns_value :
  VariantA.data exampleA !! "k"%string = Some (CacheItem "v"%string 105) /\
  VariantB.data exampleB !! "k"%string = Some (CacheItem "v"%string 105) /\
  105 >= expiryTime (CacheItem "v"%string 105) /\
  fst (VariantA.Get ""%string 105 "k" exampleA) = ("v"%string, true) /\
  fst (VariantB.Get ""%string 105 "k" exampleB) = ("v"%string, true) /\
  ("v"%string, true) <> (""%string, false).
Proof. repeat split; try reflexivity; try discriminate; simpl; lia. Qed.

Lemma set_get_roundtrip_witness :
  fst (VariantA.Get ""%string (100 + 2) "k"
         (VariantA.Set_ 100 "k" "v"%string (VariantA.NewSimpleCache 5)))
    = ("v"%string, true) /\
  fst (VariantA.Get ""%string 100 "k"
         (VariantA.Set_ 100 "k" "v"%string (VariantA.NewSimpleCache 5)))
    = ("v"%string, true) /\
  fst (VariantB.Get ""%string (100 + 3) "k"
         (VariantB.Set_ 100 "k" 5 "v"%string
            (VariantB.cache (VariantB.NewSimpleCache 1))))
    = ("v"%string, true) /\
  fst (VariantB.Get ""%string 100 "k"
         (VariantB.Set_ 100 "k" 5 "v"%string
            (VariantB.cache (VariantB.NewSimpleCache 1))))
    = ("v"%string, true).
Proof.
  apply (set_get_roundtrip ""%string 100 2 3 "k" "v"%string 5
           (VariantA.NewSimpleCache 5)
           (VariantB.cache (VariantB.NewSimpleCache 1))); simpl; lia.
Defined.

Lemma set_overwrite_witness :
  fst (VariantA.Get ""%string (200 + 1) "k"
         (VariantA.Set_ 200 "k" "v2"%string
            (VariantA.Set_ 100 "k" "v1"%string (VariantA.NewSimpleCache 5))))
    = ("v2"%string, true) /\
  fst (VariantB.Get ""%string (200 + 1) "k"
         (VariantB.Set_ 200 "k" 7 "v2"%string
            (VariantB.Set_ 100 "k" 1000 "v1"%string
               (VariantB.cache (VariantB.NewSimpleCache 1)))))
    = ("v2"%string, true).
Proof.
  assert (PA : 0 < VariantA.expiryDur (VariantA.NewSimpleCache (T:=string) 5))
    by (simpl; lia).
  assert (HA : 0 <= 1 < VariantA.expiryDur
                            (VariantA.NewSimpleCache (T:=string) 5))
    by (simpl; lia).
  assert (PB : 0 < 7) by lia.
  assert (HB : 0 <= 1 < 7) by lia.
  destruct (set_overwrite ""%string 100 200 "k" "v1"%string "v2"%string
              1000 7 (VariantA.NewSimpleCache 5)
              (VariantB.cache (VariantB.NewSimpleCache 1)))
    as (_ & _ & _ & _ & GA & GB).
  split; [exact (GA 1 PA HA) | exact (GB 1 PB HB)].
Defined.

(** C7 as stated, for every duration, fails when the later write's
    duration is not positive.  Variant B: [Set] at 100 for 5 nanoseconds,
    then [Set] at 200 with a duration of -1, stamps an expiry of 199; the
    entry does hold ["v2"], but [Get] at 200 is after 199 and returns the
    zero value and [false].  Variant A with a TTL of -1 does the same. *)
Lemma overwrite_with_negative_duration_not_found :
  VariantB.data
    (VariantB.Set_ 200 "k" (-1) "v2"%string
       (VariantB.Set_ 100 "k" 5 "v1"%string
          (VariantB.cache (VariantB.NewSimpleCache 1)))) !! "k"%string
    = Some (CacheItem "v2"%string 199) /\
  fst (VariantB.Get ""%string 200 "k"
         (VariantB.Set_ 200 "k" (-1) "v2"%string
            (VariantB.Set_ 100 "k" 5 "v1"%string
               (VariantB.cache (VariantB.NewSimpleCache 1)))))
    = (""%string, false) /\
  fst (VariantA.Get ""%string 200 "k"
         (VariantA.Set_ 200 "k" "v2"%string
            (VariantA.Set_ 100 "k" "v1"%string (VariantA.NewSimpleCache (-1)))))
    = (""%string, false) /\
  (""%string, false) <> ("v2"%string, true).
Proof. repeat split; try reflexivity; discriminate. Qed.

(** C8 as stated fails at the instant [now = expiryTime]: the entry
    written at 100 under a TTL of 5 expires at 105; [Get] at 105 (where
    105 >= 105) neither removes it nor returns not-found. *)
Lemma getA_at_expiry_instant_keeps_entry :
  VariantA.data exampleA !! "k"%string = Some (CacheItem "v"%string 105) /\
  105 >= expiryTime (CacheItem "v"%string 105) /\
  VariantA.Get ""%string 105 "k" exampleA = (("v"%string, true), exampleA) /\
  VariantA.data (snd (VariantA.Get ""%string 105 "k" exampleA)) !! "k"%string
    = Some (CacheItem "v"%string 105).
Proof. repeat split; try reflexivity; simpl; lia. Qed.

Lemma getA_cases_witness :
  VariantA.Get ""%string 106 "k" exampleA
    = ((""%string, false), VariantA.MkCache ∅ 5) /\
  VariantA.data (snd (VariantA.Get ""%string 106 "k" exampleA)) !! "k"%string
    = None.
Proof.
  assert (Hne : forall it, VariantA.data exampleA !! "k"%string = Some it ->
                           106 <> expiryTime it).
  { intros it Hit. vm_compute in Hit. inversion Hit. simpl. lia. }
  destruct (getA_cases ""%string 106 "k" exampleA Hne) as [Heq Habs].
  split.
  - rewrite Heq. reflexivity.
  - apply Habs. rewrite Heq. reflexivity.
Defined.

(** C4: the code at the failing input.  Under a zero duration the entry
    expires at the clock reading of the write; a [Get] that reads the same
    clock value finds [now] not after [expiryTime] and returns the value.
    For Variant A this is the scenario of the repository's test
    [TestSimpleCache_DurationSetToZeroWillNotCache] on a clock that does
    not advance between the two calls. *)
Theorem zero_duration_same_reading_is_found :
  fst (VariantA.Get ""%string 100 "key1"
         (VariantA.Set_ 100 "key1" "value1"%string (VariantA.NewSimpleCache 0)))
    = ("value1"%string, true) /\
  fst (VariantB.Get ""%string 100 "key1"
         (VariantB.Set_ 100 "key1" 0 "value1"%string
            (VariantB.cache (VariantB.NewSimpleCache 1))))
    = ("value1"%string, true).
Proof. split; reflexivity. Qed.

Lemma janitor_sweep_witness :
  VariantB.sweep_over 200 (map_to_list two_entries) two_entries = ∅ /\
  size (VariantB.sweep_over 200 (map_to_list two_entries) two_entries) = 0%nat.
Proof.
  assert (Hl : map_to_list two_entries ≡ₚ map_to_list two_entries)
    by reflexivity.
  destruct (janitor_sweep 200 two_entries (map_to_list two_entries) Hl)
    as (_ & _ & _ & Hall & _).
  apply Hall. intros k it. unfold two_entries.
  rewrite lookup_insert_Some, lookup_insert_Some, lookup_empty.
  intros [[_ <-]|[_ [[_ <-]|[_ ?]]]]; simpl; [lia | lia | discriminate].
Defined.

(** The sweep-reclamation scenario: two keys stored with short durations,
    the janitor scheduled, one tick after both have expired; the mapping
    is empty although [Get] was never called. *)
Example sweep_reclaims_without_get :
  VariantB.run ""%string
    [VariantB.OSet 100 "a" 5 "x"%string; VariantB.OSet 100 "b" 10 "y"%string;
     VariantB.OJanitor VariantB.Run; VariantB.OJanitor (VariantB.Tick 200)]
    (VariantB.NewSimpleCache 1)
  = VariantB.Ok
      (VariantB.MkWorld (VariantB.MkCache ∅ 1 false 1 false)
                        (VariantB.Selecting {| period := 1 |})).
Proof. vm_compute. reflexivity. Qed.

Example first_close_returns :
  VariantB.Close [VariantB.Run; VariantB.Quit] (VariantB.NewSimpleCache 1)
  = VariantB.Ok closedB.
Proof. reflexivity. Qed.

Lemma close_twice_witness :
  VariantB.Close [] closedB = VariantB.Ok closedB /\
  (forall sched', VariantB.Close sched' closedB = VariantB.Ok closedB).
Proof.
  apply (close_twice [VariantB.Run; VariantB.Quit]
           (VariantB.NewSimpleCache 1) closedB).
  reflexivity.
Defined.

Lemma set_get_after_close_witness :
  fst (VariantB.Get ""%string (100 + 2) "k"
         (VariantB.Set_ 100 "k" 5 "v"%string (VariantB.cache closedB)))
  = ("v"%string, true).
Proof.
  assert (HC : VariantB.Close [VariantB.Run; VariantB.Quit]
                 (VariantB.NewSimpleCache 1) = VariantB.Ok closedB)
    by reflexivity.
  assert (Hd : 0 < 5) by lia.
  assert (He : 0 <= 2 <= 5) by lia.
  exact (proj1 (set_get_after_close ""%string [VariantB.Run; VariantB.Quit]
                  (VariantB.NewSimpleCache 1) closedB 100 2 "k" 5 "v"%string
                  HC Hd He)).
Defined.

Lemma nonpositive_interval_panics_witness :
  VariantB.janitor VariantB.Run (VariantB.NewSimpleCache (T:=string) 0)
  = VariantB.Panic "non-positive interval for NewTicker".
Proof.
  assert (Hi : 0 <= 0) by lia.
  exact (proj1 (nonpositive_interval_panics ""%string 0 Hi)).
Defined.

(** * Further properties of the code *)

(** ** Keys and expiry *)

Section Calls.
Context {T : Type}.
Variable zero : T.

(** [Get] only looks at the binding of its own key. *)
Lemma getA_fst_lookup now key (c c' : VariantA.SimpleCache T) :
  VariantA.data c !! key = VariantA.data c' !! key ->
  fst (VariantA.Get zero now key c) = fst (VariantA.Get zero now key c').
Proof.
  intros H. unfold VariantA.Get. rewrite H.
  destruct (VariantA.data c' !! key) as [it|]; [|reflexivity].
  destruct (After now (expiryTime it)); reflexivity.
Qed.

Lemma getB_fst_lookup now key (c c' : VariantB.SimpleCache T) :
  VariantB.data c !! key = VariantB.data c' !! key ->
  fst (VariantB.Get zero now key c) = fst (VariantB.Get zero now key c').
Proof.
  intros H. unfold VariantB.Get. rewrite H.
  destruct (VariantB.data c' !! key) as [it|]; [|reflexivity].
  destruct (After now (expiryTime it)); reflexivity.
Qed.

(** Variant A's [Get] leaves the bindings of the other keys alone. *)
Lemma getA_other now key key' (c : VariantA.SimpleCache T) :
  key <> key' ->
  VariantA.data (snd (VariantA.Get zero now key c)) !! key'
  = VariantA.data c !! key'.
Proof.
  intros Hne. unfold VariantA.Get.
  destruct (VariantA.data c !! key) as [it|]; [|reflexivity].
  destruct (After now (expiryTime it)); [|reflexivity].
  simpl. apply lookup_delete_ne. exact Hne.
Qed.

(** X1. Expiry: [Set] of a key followed by [Get] of it more than the
    duration later on the clock returns the zero value and [false],
    whatever the sign of the duration.  Variant A deletes the entry on
    that [Get], so the mapping is the one before the [Set] without the
    key; Variant B leaves the expired entry where [Set] put it. *)
Theorem set_get_expired
    (now eA eB : Z) (key : string) (v : T) (d : Duration)
    (cA : VariantA.SimpleCache T) (cB : VariantB.SimpleCache T) :
  VariantA.expiryDur cA < eA -> d < eB ->
  VariantA.Get zero (now + eA) key (VariantA.Set_ now key v cA)
    = ((zero, false),
       VariantA.MkCache (delete key (VariantA.data cA))
                        (VariantA.expiryDur cA)) /\
  VariantB.Get zero (now + eB) key (VariantB.Set_ now key d v cB)
    = ((zero, false), VariantB.Set_ now key d v cB) /\
  VariantB.data (snd (VariantB.Get zero (now + eB) key
                        (VariantB.Set_ now key d v cB))) !! key
    = Some (CacheItem v (now + d)).
Proof.
  intros HA HB. split; [|split].
  - rewrite (getA_expired zero _ key _ _ (setA_lookup now key v cA))
      by (simpl; lia).
    simpl. rewrite delete_insert_eq. reflexivity.
  - rewrite (getB_expired zero _ key _ _ (setB_lookup now key d v cB))
      by (simpl; lia).
    reflexivity.
  - rewrite getB_snd. apply setB_lookup.
Qed.

(** X2. Keys are independent: a [Set] of one key changes neither the
    binding of another key nor what [Get] returns for it, and Variant A's
    [Get], which may delete the key it reads, leaves every other key's
    binding as it was. *)
Theorem key_independence
    (now t : Time) (k k' : string) (v : T) (d : Duration)
    (cA : VariantA.SimpleCache T) (cB : VariantB.SimpleCache T) :
  k <> k' ->
  VariantA.data (VariantA.Set_ now k v cA) !! k' = VariantA.data cA !! k' /\
  fst (VariantA.Get zero t k' (VariantA.Set_ now k v cA))
    = fst (VariantA.Get zero t k' cA) /\
  VariantA.data (snd (VariantA.Get zero t k cA)) !! k'
    = VariantA.data cA !! k' /\
  fst (VariantA.Get zero t k' (snd (VariantA.Get zero t k cA)))
    = fst (VariantA.Get zero t k' cA) /\
  VariantB.data (VariantB.Set_ now k d v cB) !! k' = VariantB.data cB !! k' /\
  fst (VariantB.Get zero t k' (VariantB.Set_ now k d v cB))
    = fst (VariantB.Get zero t k' cB).
Proof.
  intros Hne.
  assert (HA : VariantA.data (VariantA.Set_ now k v cA) !! k'
               = VariantA.data cA !! k')
    by (simpl; apply lookup_insert_ne; exact Hne).
  assert (HB : VariantB.data (VariantB.Set_ now k d v cB) !! k'
               = VariantB.data cB !! k')
    by (simpl; apply lookup_insert_ne; exact Hne).
  pose proof (getA_other t k k' cA Hne) as HG.
  repeat split; auto using getA_fst_lookup, getB_fst_lookup.
Qed.

(** X4. An entry that has expired stays expired: once [Get] has returned
    not-found for a key, every [Get] of that key at the same or a later
    clock reading returns the zero value and [false] again, until the key
    is written anew. *)
Theorem not_found_is_stable
    (t t' : Time) (key : string)
    (cA : VariantA.SimpleCache T) (cB : VariantB.SimpleCache T) :
  t <= t' ->
  snd (fst (VariantA.Get zero t key cA)) = false ->
  snd (fst (VariantB.Get zero t key cB)) = false ->
  fst (VariantA.Get zero t' key (snd (VariantA.Get zero t key cA)))
    = (zero, false) /\
  fst (VariantB.Get zero t' key (snd (VariantB.Get zero t key cB)))
    = (zero, false).
Proof.
  intros Hle HA HB. split.
  - unfold VariantA.Get in HA |- *.
    destruct (VariantA.data cA !! key) as [it|] eqn:Hk.
    + destruct (After t (expiryTime it)) eqn:E; [|discriminate].
      simpl. rewrite lookup_delete_eq. reflexivity.
    + simpl. rewrite Hk. reflexivity.
  - rewrite getB_snd. unfold VariantB.Get in HB |- *.
    destruct (VariantB.data cB !! key) as [it|]; [|reflexivity].
    destruct (After t (expiryTime it)) eqn:E; [|discriminate].
    apply After_spec in E.
    assert (E' : After t' (expiryTime it) = true) by (apply After_spec; lia).
    rewrite E'. reflexivity.
Qed.

End Calls.

(** ** The janitor seen by the clients *)

Section Janitor.
Context {T : Type}.
Variable zero : T.
Implicit Types (m : gmap string (cacheItem T)) (w : VariantB.World T).

Lemma sweep_lookup now m k :
  VariantB.sweep now m !! k = survivor now (m !! k).
Proof. unfold VariantB.sweep. apply sweep_over_lookup. reflexivity. Qed.

(** An entry expired at [t] is expired at every later reading. *)
Lemma survivor_later (t t' : Time) (o : option (cacheItem T)) :
  t <= t' -> survivor t' (survivor t o) = survivor t' o.
Proof.
  intros Hle. destruct o as [it|]; simpl; [|reflexivity].
  destruct (After t (expiryTime it)) eqn:E; simpl; [|reflexivity].
  apply After_spec in E.
  assert (E' : After t' (expiryTime it) = true) by (apply After_spec; lia).
  rewrite E'. reflexivity.
Qed.

(** What [Get] returns is a function of the live part of the binding. *)
Lemma getB_survivor now key (c : VariantB.SimpleCache T) :
  fst (VariantB.Get zero now key c)
  = match survivor now (VariantB.data c !! key) with
    | Some it => (value it, true)
    | None => (zero, false)
    end.
Proof.
  unfold VariantB.Get. destruct (VariantB.data c !! key) as [it|]; simpl;
    [|reflexivity].
  destruct (After now (expiryTime it)); reflexivity.
Qed.

Lemma getA_survivor now key (c : VariantA.SimpleCache T) :
  fst (VariantA.Get zero now key c)
  = match survivor now (VariantA.data c !! key) with
    | Some it => (value it, true)
    | None => (zero, false)
    end.
Proof.
  unfold VariantA.Get. destruct (VariantA.data c !! key) as [it|]; simpl;
    [|reflexivity].
  destruct (After now (expiryTime it)); reflexivity.
Qed.

(** A janitor step leaves of a binding what a sweep at some reading
    leaves of it, or all of it. *)
Lemma janitor_lookup e w w' k :
  VariantB.janitor e w = VariantB.Ok w' ->
  VariantB.data (VariantB.cache w') !! k
    = VariantB.data (VariantB.cache w) !! k \/
  exists now, e = VariantB.Tick now /\
    VariantB.data (VariantB.cache w') !! k
    = survivor now (VariantB.data (VariantB.cache w) !! k).
Proof.
  unfold VariantB.janitor.
  destruct (VariantB.janitor_pc w) as [|tk|], e as [|now|]; simpl;
    try (intros [= <-]; left; reflexivity).
  - destruct (NewTicker _); [intros [= <-]; left; reflexivity | discriminate].
  - intros [= <-]. right. exists now. split; [reflexivity|]. simpl.
    apply sweep_lookup.
  - destruct (VariantB.done (VariantB.cache w));
      [|intros [= <-]; left; reflexivity].
    unfold VariantB.wg_Done.
    destruct (VariantB.wg (VariantB.cache w) <=? 0); simpl;
      [discriminate | intros [= <-]; left; reflexivity].
Qed.

(** X5. The janitor is invisible to readers: after a tick of the janitor
    at clock reading [now], in whatever state the goroutine is, [Get] of
    any key at the same or a later reading returns exactly what it would
    have returned had the tick not happened. *)
Theorem tick_invisible_to_get
    (now t : Time) (key : string) (w w' : VariantB.World T) :
  VariantB.janitor (VariantB.Tick now) w = VariantB.Ok w' ->
  now <= t ->
  fst (VariantB.Get zero t key (VariantB.cache w'))
  = fst (VariantB.Get zero t key (VariantB.cache w)).
Proof.
  intros HJ Hle. rewrite !getB_survivor.
  destruct (janitor_lookup _ _ _ key HJ) as [->|(now' & [= <-] & ->)];
    [reflexivity|].
  rewrite (survivor_later now t _ Hle). reflexivity.
Qed.

(** X6. Sweeps compose: a sweep at [now2] after a sweep at an earlier
    reading [now1] leaves the mapping a single sweep at [now2] leaves, a
    sweep at the earlier reading after the later one changes nothing, and
    sweeping twice at one reading is sweeping once.  A sweep never adds or
    alters an entry. *)
Theorem sweep_compose (now1 now2 : Time) (m : gmap string (cacheItem T)) :
  now1 <= now2 ->
  VariantB.sweep now2 (VariantB.sweep now1 m) = VariantB.sweep now2 m /\
  VariantB.sweep now1 (VariantB.sweep now2 m) = VariantB.sweep now2 m /\
  VariantB.sweep now2 (VariantB.sweep now2 m) = VariantB.sweep now2 m /\
  VariantB.sweep now2 m ⊆ VariantB.sweep now1 m /\
  VariantB.sweep now1 m ⊆ m /\
  (size (VariantB.sweep now1 m) <= size m)%nat.
Proof.
  intros Hle.
  assert (Hsub : forall now, VariantB.sweep now m ⊆ m).
  { intros now. apply map_subseteq_spec. intros k it.
    rewrite sweep_lookup. destruct (m !! k) as [it'|]; simpl; [|discriminate].
    destruct (After now (expiryTime it')); [discriminate | auto]. }
  repeat split.
  - apply map_eq. intros k. rewrite !sweep_lookup.
    apply survivor_later. exact Hle.
  - apply map_eq. intros k. rewrite !sweep_lookup.
    destruct (m !! k) as [it|]; simpl; [|reflexivity].
    destruct (After now2 (expiryTime it)) eqn:E2; simpl; [reflexivity|].
    apply After_false in E2.
    assert (E1 : After now1 (expiryTime it) = false)
      by (apply After_false; lia).
    rewrite E1. reflexivity.
  - apply map_eq. intros k. rewrite !sweep_lookup.
    apply survivor_later. lia.
  - apply map_subseteq_spec. intros k it. rewrite !sweep_lookup.
    destruct (m !! k) as [it'|]; simpl; [|discriminate].
    destruct (After now2 (expiryTime it')) eqn:E2; [discriminate|].
    apply After_false in E2.
    assert (E1 : After now1 (expiryTime it') = false)
      by (apply After_false; lia).
    rewrite E1. auto.
  - apply Hsub.
  - apply map_subseteq_size, Hsub.
Qed.

(** *** Only [Set] adds entries *)

Lemma survivor_None_or (now : Time) (o : option (cacheItem T)) :
  survivor now o = None \/ survivor now o = o.
Proof.
  destruct o as [it|]; simpl; [|left; reflexivity].
  destruct (After now (expiryTime it)); [left | right]; reflexivity.
Qed.

Lemma janitor_lookup_shrinks e w w' k :
  VariantB.janitor e w = VariantB.Ok w' ->
  VariantB.data (VariantB.cache w') !! k = None \/
  VariantB.data (VariantB.cache w') !! k
    = VariantB.data (VariantB.cache w) !! k.
Proof.
  intros HJ.
  destruct (janitor_lookup _ _ _ k HJ) as [->|(now & _ & ->)];
    [right; reflexivity | apply survivor_None_or].
Qed.

Lemma wg_Wait_lookup_shrinks sched k : forall w w',
  VariantB.wg_Wait sched w = VariantB.Ok w' ->
  VariantB.data (VariantB.cache w') !! k = None \/
  VariantB.data (VariantB.cache w') !! k
    = VariantB.data (VariantB.cache w) !! k.
Proof.
  induction sched as [|e sched IH]; intros w w'; simpl.
  - destruct (VariantB.wg (VariantB.cache w) =? 0);
      [intros [= <-]; right; reflexivity | discriminate].
  - destruct (VariantB.wg (VariantB.cache w) =? 0);
      [intros [= <-]; right; reflexivity |].
    destruct (VariantB.janitor e w) as [w2| |] eqn:J; simpl;
      try discriminate.
    intros H. destruct (IH _ _ H) as [IH1|IH1]; [left; exact IH1|].
    rewrite IH1. apply (janitor_lookup_shrinks e w w2 k J).
Qed.

Lemma Close_lookup_shrinks sched w w' k :
  VariantB.Close sched w = VariantB.Ok w' ->
  VariantB.data (VariantB.cache w') !! k = None \/
  VariantB.data (VariantB.cache w') !! k
    = VariantB.data (VariantB.cache w) !! k.
Proof.
  unfold VariantB.Close, VariantB.closeOnce_Do, VariantB.close_done.
  destruct (VariantB.closeOnce (VariantB.cache w)); simpl.
  - intros H. apply (wg_Wait_lookup_shrinks sched k) in H. exact H.
  - destruct (VariantB.done (VariantB.cache w)); simpl; [discriminate|].
    intros H. apply (wg_Wait_lookup_shrinks sched k) in H. exact H.
Qed.

Lemma step_lookup_shrinks o w w' k :
  op_writes k o = false ->
  VariantB.step zero o w = VariantB.Ok w' ->
  VariantB.data (VariantB.cache w') !! k = None \/
  VariantB.data (VariantB.cache w') !! k
    = VariantB.data (VariantB.cache w) !! k.
Proof.
  destruct o as [now key d v|now key|sched|e]; simpl; intros Hw.
  - intros [= <-]. right. simpl. apply lookup_insert_ne.
    apply bool_decide_eq_false in Hw. exact Hw.
  - intros [= <-]. right. simpl. rewrite getB_snd. reflexivity.
  - apply Close_lookup_shrinks.
  - apply janitor_lookup_shrinks.
Qed.

Lemma run_lookup_shrinks os k : forall w w',
  forallb (fun o => negb (op_writes k o)) os = true ->
  VariantB.run zero os w = VariantB.Ok w' ->
  VariantB.data (VariantB.cache w') !! k = None \/
  VariantB.data (VariantB.cache w') !! k
    = VariantB.data (VariantB.cache w) !! k.
Proof.
  induction os as [|o os IH]; intros w w'; simpl.
  - intros _ [= <-]. right. reflexivity.
  - intros [Ho Hos]%andb_prop.
    destruct (VariantB.step zero o w) as [w2| |] eqn:S; simpl;
      try discriminate.
    intros H. destruct (IH _ _ Hos H) as [IH1|IH1]; [left; exact IH1|].
    rewrite IH1. apply (step_lookup_shrinks o w w2 k); [|exact S].
    apply negb_true_iff. exact Ho.
Qed.

(** X7. In Variant B only [Set] adds or changes an entry: across any
    sequence of [Get]s, [Close]s and janitor steps that runs to its end,
    the mapping can only lose entries, and every entry still there is the
    one that was there, value and expiry. *)
Theorem only_set_adds (os : list (VariantB.op T)) (w w' : VariantB.World T) :
  (forall k, forallb (fun o => negb (op_writes k o)) os = true) ->
  VariantB.run zero os w = VariantB.Ok w' ->
  VariantB.data (VariantB.cache w') ⊆ VariantB.data (VariantB.cache w) /\
  (size (VariantB.data (VariantB.cache w'))
   <= size (VariantB.data (VariantB.cache w)))%nat.
Proof.
  intros Hos Hrun.
  assert (Hsub : VariantB.data (VariantB.cache w')
                 ⊆ VariantB.data (VariantB.cache w)).
  { apply map_subseteq_spec. intros k it Hk.
    destruct (run_lookup_shrinks os k w w' (Hos k) Hrun) as [E|E];
      congruence. }
  split; [exact Hsub | apply map_subseteq_size, Hsub].
Qed.

End Janitor.

(** ** Keys that are not written, keys that are not read *)

Section Untouched.
Context {T : Type}.
Variable zero : T.

(** Over a trace that does not write [k], Variant A can only lose the
    binding of [k]. *)
Lemma observeA_lookup_shrinks (tr : list (event T)) (k : string) :
  forall c : VariantA.SimpleCache T,
  forallb (fun e => negb (writes k e)) tr = true ->
  VariantA.data (snd (observeA zero tr c)) !! k = None \/
  VariantA.data (snd (observeA zero tr c)) !! k = VariantA.data c !! k.
Proof.
  induction tr as [|e tr IH]; intros c; simpl; [right; reflexivity|].
  intros [He Htr]%andb_prop. apply negb_true_iff in He.
  destruct e as [now key d v|now key|now]; simpl in *.
  - apply bool_decide_eq_false in He.
    destruct (IH (VariantA.Set_ now key v c) Htr) as [H|H];
      [left; exact H | right].
    rewrite H. simpl. apply lookup_insert_ne. exact He.
  - destruct (IH (snd (VariantA.Get zero now key c)) Htr) as [H|H];
      [left; exact H|].
    rewrite H. unfold VariantA.Get.
    destruct (VariantA.data c !! key) as [it|] eqn:Hk; [|right; reflexivity].
    destruct (After now (expiryTime it)); [|right; reflexivity].
    simpl. destruct (decide (key = k)) as [->|Hne].
    + left. apply lookup_delete_eq.
    + right. apply lookup_delete_ne. exact Hne.
  - apply IH. exact Htr.
Qed.

(** X8. Missing key: a key that was absent and has not been written since
    is reported not-found, with the zero value, at every clock reading and
    whatever else was done to the cache in between; the [Get] leaves the
    cache as it is.  In Variant B this holds across [Close] and the steps
    of the janitor too. *)
Theorem never_written_not_found
    (k : string) (t : Time)
    (tr : list (event T)) (cA : VariantA.SimpleCache T)
    (os : list (VariantB.op T)) (w w' : VariantB.World T) :
  VariantA.data cA !! k = None ->
  forallb (fun e => negb (writes k e)) tr = true ->
  VariantB.data (VariantB.cache w) !! k = None ->
  forallb (fun o => negb (op_writes k o)) os = true ->
  VariantB.run zero os w = VariantB.Ok w' ->
  VariantA.Get zero t k (snd (observeA zero tr cA))
    = ((zero, false), snd (observeA zero tr cA)) /\
  VariantB.Get zero t k (VariantB.cache w')
    = ((zero, false), VariantB.cache w').
Proof.
  intros HA Htr HB Hos Hrun. split.
  - apply getA_absent.
    destruct (observeA_lookup_shrinks tr k cA Htr) as [H|H]; congruence.
  - apply getB_absent.
    destruct (run_lookup_shrinks zero os k w w' Hos Hrun) as [H|H]; congruence.
Qed.

(** X9. Variant A reclaims an entry only when that very key is read or
    written: over any trace that neither writes nor reads [k], however
    late its clock readings, the binding of [k] in the mapping is the one
    the trace started with, expired or not. *)
Theorem unread_entry_stays
    (k : string) (tr : list (event T)) (c : VariantA.SimpleCache T) :
  forallb (fun e => negb (writes k e)) tr = true ->
  forallb (fun e => negb (reads k e)) tr = true ->
  VariantA.data (snd (observeA zero tr c)) !! k = VariantA.data c !! k /\
  VariantA.expiryDur (snd (observeA zero tr c)) = VariantA.expiryDur c.
Proof.
  revert c. induction tr as [|e tr IH]; intros c; simpl; [auto|].
  intros [He Htr]%andb_prop [Hr Hrs]%andb_prop.
  apply negb_true_iff in He, Hr.
  destruct e as [now key d v|now key|now]; simpl in *.
  - apply bool_decide_eq_false in He.
    destruct (IH (VariantA.Set_ now key v c) Htr Hrs) as [-> ->].
    split; [|reflexivity]. simpl. apply lookup_insert_ne. exact He.
  - apply bool_decide_eq_false in Hr.
    destruct (IH (snd (VariantA.Get zero now key c)) Htr Hrs) as [-> ->].
    split; [apply getA_other; exact Hr|].
    unfold VariantA.Get. destruct (VariantA.data c !! key) as [it|];
      [destruct (After now (expiryTime it))|]; reflexivity.
  - apply IH; assumption.
Qed.

End Untouched.

(** ** The lifecycle from [NewSimpleCache] on (Variant B) *)

Section Reachable.
Context {T : Type}.
Variable zero : T.
Implicit Types (w : VariantB.World T).

Lemma run_well_formed os : forall w w',
  well_formed w -> VariantB.run zero os w = VariantB.Ok w' -> well_formed w'.
Proof.
  induction os as [|o os IH]; intros w w' Hw; simpl.
  - intros [= <-]. exact Hw.
  - destruct (VariantB.step zero o w) as [w2| |] eqn:S; simpl;
      try discriminate.
    apply IH. apply (proj2 (step_safe zero o w Hw)). exact S.
Qed.

Lemma janitor_interval e w w' :
  VariantB.janitor e w = VariantB.Ok w' ->
  VariantB.cleanupInterval (VariantB.cache w')
  = VariantB.cleanupInterval (VariantB.cache w).
Proof.
  unfold VariantB.janitor.
  destruct (VariantB.janitor_pc w) as [|tk|], e as [|now|]; simpl;
    try (intros [= <-]; reflexivity).
  - destruct (NewTicker _); [intros [= <-]; reflexivity | discriminate].
  - destruct (VariantB.done (VariantB.cache w));
      [|intros [= <-]; reflexivity].
    unfold VariantB.wg_Done.
    destruct (VariantB.wg (VariantB.cache w) <=? 0); simpl;
      [discriminate | intros [= <-]; reflexivity].
Qed.

Lemma wg_Wait_interval sched : forall w w',
  VariantB.wg_Wait sched w = VariantB.Ok w' ->
  VariantB.cleanupInterval (VariantB.cache w')
  = VariantB.cleanupInterval (VariantB.cache w).
Proof.
  induction sched as [|e sched IH]; intros w w'; simpl.
  - destruct (VariantB.wg (VariantB.cache w) =? 0);
      [intros [= <-]; reflexivity | discriminate].
  - destruct (VariantB.wg (VariantB.cache w) =? 0);
      [intros [= <-]; reflexivity |].
    destruct (VariantB.janitor e w) as [w2| |] eqn:J; simpl;
      try discriminate.
    intros H. rewrite (IH _ _ H). apply (janitor_interval e w w2 J).
Qed.

Lemma step_interval o w w' :
  VariantB.step zero o w = VariantB.Ok w' ->
  VariantB.cleanupInterval (VariantB.cache w')
  = VariantB.cleanupInterval (VariantB.cache w).
Proof.
  destruct o as [now key d v|now key|sched|e]; simpl.
  - intros [= <-]. reflexivity.
  - intros [= <-]. simpl. rewrite getB_snd. reflexivity.
  - unfold VariantB.Close, VariantB.closeOnce_Do, VariantB.close_done.
    destruct (VariantB.closeOnce (VariantB.cache w)); simpl.
    + intros H. apply wg_Wait_interval in H. exact H.
    + destruct (VariantB.done (VariantB.cache w)); simpl; [discriminate|].
      intros H. apply wg_Wait_interval in H. exact H.
  - apply janitor_interval.
Qed.

Lemma run_interval os : forall w w',
  VariantB.run zero os w = VariantB.Ok w' ->
  VariantB.cleanupInterval (VariantB.cache w')
  = VariantB.cleanupInterval (VariantB.cache w).
Proof.
  induction os as [|o os IH]; intros w w'; simpl.
  - intros [= <-]. reflexivity.
  - destruct (VariantB.step zero o w) as [w2| |] eqn:S; simpl;
      try discriminate.
    intros H. rewrite (IH _ _ H). apply (step_interval o w w2 S).
Qed.

Lemma reachable_well_formed (i : Duration) os w :
  0 < i -> VariantB.run zero os (VariantB.NewSimpleCache i) = VariantB.Ok w ->
  well_formed w.
Proof.
  intros Hi. apply run_well_formed, well_formed_new, Hi.
Qed.

(** X11. What every state reached from [NewSimpleCache] with a positive
    interval satisfies: the interval is the one given at construction;
    [done] is closed exactly when the [sync.Once] has fired; the WaitGroup
    counter is 1 until the janitor has returned and 0 from then on; and
    the janitor returns only after [done] was closed. *)
Theorem reachable_invariants
    (i : Duration) (os : list (VariantB.op T)) (w : VariantB.World T) :
  0 < i ->
  VariantB.run zero os (VariantB.NewSimpleCache i) = VariantB.Ok w ->
  VariantB.cleanupInterval (VariantB.cache w) = i /\
  VariantB.done (VariantB.cache w) = VariantB.closeOnce (VariantB.cache w) /\
  (VariantB.wg (VariantB.cache w) = 0 \/ VariantB.wg (VariantB.cache w) = 1) /\
  (VariantB.wg (VariantB.cache w) = 0 <->
   VariantB.janitor_pc w = VariantB.Exited) /\
  (VariantB.janitor_pc w = VariantB.Exited ->
   VariantB.done (VariantB.cache w) = true).
Proof.
  intros Hi Hrun.
  pose proof (run_interval os _ _ Hrun) as Hint. simpl in Hint.
  destruct (reachable_well_formed i os w Hi Hrun) as (_ & Hd & Hpc).
  split; [exact Hint|]. split; [exact Hd|].
  destruct (VariantB.janitor_pc w) as [|tk|].
  - repeat split; auto; try discriminate. rewrite Hpc. discriminate.
  - repeat split; auto; try discriminate. rewrite Hpc. discriminate.
  - destruct Hpc as [H0 H1]. repeat split; auto.
Qed.

(** X12. [Close] terminates: in every state reached from [NewSimpleCache]
    with a positive interval, [Close] returns as soon as the janitor has
    been scheduled and has taken the [done] branch of its [select].  When
    it returns the janitor has exited, [done] is closed, the WaitGroup
    counter is 0, and the mapping is the one [Close] found. *)
Theorem close_terminates
    (i : Duration) (os : list (VariantB.op T)) (w : VariantB.World T) :
  0 < i ->
  VariantB.run zero os (VariantB.NewSimpleCache i) = VariantB.Ok w ->
  exists w',
    VariantB.Close [VariantB.Run; VariantB.Quit] w = VariantB.Ok w' /\
    VariantB.janitor_pc w' = VariantB.Exited /\
    VariantB.done (VariantB.cache w') = true /\
    VariantB.wg (VariantB.cache w') = 0 /\
    VariantB.closeOnce (VariantB.cache w') = true /\
    VariantB.data (VariantB.cache w') = VariantB.data (VariantB.cache w).
Proof.
  intros Hi Hrun.
  pose proof (reachable_well_formed i os w Hi Hrun) as Hw.
  destruct (Close_completes w Hw) as [w' HC]. exists w'.
  destruct (Close_returns _ _ _ HC) as [Hwg Honce].
  destruct (proj2 (Close_safe _ w Hw) w' HC) as (_ & Hd & Hpc).
  assert (Hex : VariantB.janitor_pc w' = VariantB.Exited).
  { destruct (VariantB.janitor_pc w'); [lia | lia | reflexivity]. }
  repeat split; auto.
  - congruence.
  - apply (Close_data [VariantB.Run; VariantB.Quit] w w'); [|exact HC].
    intros now Hin. repeat (apply elem_of_cons in Hin as [Hin|Hin];
      [discriminate|]). inversion Hin.
Qed.

Lemma janitor_not_exited e w w' :
  e <> VariantB.Quit -> VariantB.janitor_pc w <> VariantB.Exited ->
  VariantB.janitor e w = VariantB.Ok w' ->
  VariantB.janitor_pc w' <> VariantB.Exited.
Proof.
  unfold VariantB.janitor. intros He Hpc.
  destruct (VariantB.janitor_pc w) as [|tk|] eqn:E, e as [|now|]; simpl;
    try congruence;
    try (intros [= <-]; rewrite E; discriminate);
    try (intros [= <-]; simpl; discriminate).
  destruct (NewTicker _); [intros [= <-]; simpl; discriminate | discriminate].
Qed.

Lemma wg_Wait_blocked sched : forall w,
  well_formed w -> VariantB.janitor_pc w <> VariantB.Exited ->
  VariantB.Quit ∉ sched ->
  VariantB.wg_Wait sched w = VariantB.Blocked.
Proof.
  induction sched as [|e sched IH]; intros w Hw Hpc Hq; simpl.
  - destruct Hw as (_ & _ & H).
    destruct (VariantB.janitor_pc w); try congruence; rewrite H; reflexivity.
  - assert (Hwg : VariantB.wg (VariantB.cache w) = 1).
    { destruct Hw as (_ & _ & H).
      destruct (VariantB.janitor_pc w); congruence. }
    rewrite Hwg. simpl.
    destruct (janitor_safe e w Hw) as (w2 & J & Hw2). rewrite J. simpl.
    apply IH; [exact Hw2 | | ].
    + apply (janitor_not_exited e w w2); [|exact Hpc|exact J].
      intros ->. apply Hq. left.
    + intros Hin. apply Hq. right. exact Hin.
Qed.

(** X13. [Close] waits for the janitor: while the goroutine has not
    returned, [Close] stays blocked for as long as the janitor does not
    take the [done] branch of its [select], whatever else it does (start
    up, sweep on ticks); in particular it blocks if the goroutine is never
    scheduled. *)
Theorem close_waits_for_janitor
    (i : Duration) (os : list (VariantB.op T)) (w : VariantB.World T)
    (sched : list VariantB.jevent) :
  0 < i ->
  VariantB.run zero os (VariantB.NewSimpleCache i) = VariantB.Ok w ->
  VariantB.janitor_pc w <> VariantB.Exited ->
  VariantB.Quit ∉ sched ->
  VariantB.Close sched w = VariantB.Blocked /\
  VariantB.Close [] w = VariantB.Blocked.
Proof.
  intros Hi Hrun Hpc Hq.
  pose proof (reachable_well_formed i os w Hi Hrun) as Hw.
  assert (H : forall sched', VariantB.Quit ∉ sched' ->
                VariantB.Close sched' w = VariantB.Blocked).
  { intros sched' Hq'. destruct w as [c pc]. destruct Hw as (Hint & Hd & Hwg).
    simpl in *. unfold VariantB.Close, VariantB.closeOnce_Do,
      VariantB.close_done. simpl.
    destruct (VariantB.closeOnce c) eqn:Once; simpl.
    - apply wg_Wait_blocked; [|exact Hpc|exact Hq'].
      unfold well_formed. simpl. rewrite Once. auto.
    - rewrite Hd. simpl. apply wg_Wait_blocked; [|exact Hpc|exact Hq'].
      unfold well_formed. simpl. repeat split; [exact Hint|].
      destruct pc; [exact Hwg | exact Hwg | congruence]. }
  split; [apply H; exact Hq | apply H; apply not_elem_of_nil].
Qed.

(** X14. After [Close] has returned nothing touches the mapping behind
    the client's back: the janitor has exited, so no later step of it,
    tick or other, changes the world.  Expired entries written after
    [Close] are therefore never swept. *)
Theorem no_sweep_after_close
    (i : Duration) (os : list (VariantB.op T)) (w w1 : VariantB.World T)
    (sched evs : list VariantB.jevent) :
  0 < i ->
  VariantB.run zero os (VariantB.NewSimpleCache i) = VariantB.Ok w ->
  VariantB.Close sched w = VariantB.Ok w1 ->
  VariantB.janitor_pc w1 = VariantB.Exited /\
  (forall e, VariantB.janitor e w1 = VariantB.Ok w1) /\
  VariantB.run zero (map VariantB.OJanitor evs) w1 = VariantB.Ok w1.
Proof.
  intros Hi Hrun HC.
  pose proof (reachable_well_formed i os w Hi Hrun) as Hw.
  destruct (Close_returns _ _ _ HC) as [Hwg _].
  destruct (proj2 (Close_safe _ w Hw) w1 HC) as (_ & _ & Hpc).
  assert (Hex : VariantB.janitor_pc w1 = VariantB.Exited).
  { destruct (VariantB.janitor_pc w1); [lia | lia | reflexivity]. }
  assert (HJ : forall e, VariantB.janitor e w1 = VariantB.Ok w1).
  { intros e. unfold VariantB.janitor. rewrite Hex. destruct e; reflexivity. }
  split; [exact Hex|]. split; [exact HJ|].
  induction evs as [|e evs IH]; simpl; [reflexivity|].
  rewrite HJ. simpl. exact IH.
Qed.

End Reachable.

(** ** What clients observe over a whole trace *)

Section Traces.
Context {T : Type}.
Variable zero : T.
Implicit Types (m : gmap string (cacheItem T)) (tr : list (event T)).

Lemma same_live_refl now m : same_live now m m.
Proof. intros k. reflexivity. Qed.

(** Mappings with the same live entries at [t] have the same live entries
    at every later reading. *)
Lemma same_live_later (t t' : Time) m1 m2 :
  t <= t' -> same_live t m1 m2 -> same_live t' m1 m2.
Proof.
  intros Hle H k.
  rewrite <- (survivor_later t t' (m1 !! k) Hle).
  rewrite <- (survivor_later t t' (m2 !! k) Hle).
  rewrite (H k). reflexivity.
Qed.

Lemma same_live_insert now k it m1 m2 :
  same_live now m1 m2 -> same_live now (<[k := it]> m1) (<[k := it]> m2).
Proof.
  intros H k'. destruct (decide (k = k')) as [->|Hne].
  - rewrite !lookup_insert_eq. reflexivity.
  - rewrite !lookup_insert_ne by exact Hne. apply H.
Qed.

Lemma survivor_idem (now : Time) (o : option (cacheItem T)) :
  survivor now (survivor now o) = survivor now o.
Proof. apply survivor_later. lia. Qed.

(** A tick at [now] keeps the live entries at [now]. *)
Lemma tick_same_live now (w : VariantB.World T) :
  exists w', VariantB.janitor (VariantB.Tick now) w = VariantB.Ok w' /\
    same_live now (VariantB.data (VariantB.cache w'))
                  (VariantB.data (VariantB.cache w)).
Proof.
  assert (H : exists w', VariantB.janitor (VariantB.Tick now) w = VariantB.Ok w').
  { unfold VariantB.janitor. destruct (VariantB.janitor_pc w); eauto. }
  destruct H as [w' HJ]. exists w'. split; [exact HJ|]. intros k.
  destruct (janitor_lookup _ _ _ k HJ) as [->|(now' & [= <-] & ->)];
    [reflexivity | apply survivor_idem].
Qed.

(** Variant A's [Get] at [now] keeps the live entries at [now], and the
    TTL. *)
Lemma getA_same_live now key (c : VariantA.SimpleCache T) :
  same_live now (VariantA.data (snd (VariantA.Get zero now key c)))
                (VariantA.data c) /\
  VariantA.expiryDur (snd (VariantA.Get zero now key c))
  = VariantA.expiryDur c.
Proof.
  unfold VariantA.Get.
  destruct (VariantA.data c !! key) as [it|] eqn:Hk;
    [|split; [apply same_live_refl | reflexivity]].
  destruct (After now (expiryTime it)) eqn:E;
    [|split; [apply same_live_refl | reflexivity]].
  simpl. split; [|reflexivity]. intros k.
  destruct (decide (key = k)) as [<-|Hne].
  - rewrite lookup_delete_eq, Hk. simpl. rewrite E. reflexivity.
  - rewrite lookup_delete_ne by exact Hne. reflexivity.
Qed.

Lemma get_same_live now key (c1 c2 : VariantB.SimpleCache T) :
  same_live now (VariantB.data c1) (VariantB.data c2) ->
  fst (VariantB.Get zero now key c1) = fst (VariantB.Get zero now key c2).
Proof. intros H. rewrite !getB_survivor, (H key). reflexivity. Qed.

Lemma getAB_same_live now key
    (cA : VariantA.SimpleCache T) (cB : VariantB.SimpleCache T) :
  same_live now (VariantA.data cA) (VariantB.data cB) ->
  fst (VariantA.Get zero now key cA) = fst (VariantB.Get zero now key cB).
Proof. intros H. rewrite getA_survivor, getB_survivor, (H key). reflexivity. Qed.

(** Two worlds with the same live entries, one replaying the trace and
    the other the trace without its ticks, return the same to every
    [Get]. *)
Lemma observeB_without_ticks tr : forall (t0 : Time) (w1 w2 : VariantB.World T),
  chronological t0 tr = true ->
  same_live t0 (VariantB.data (VariantB.cache w1))
               (VariantB.data (VariantB.cache w2)) ->
  exists obs w1' w2',
    observeB zero tr w1 = VariantB.Ok (obs, w1') /\
    observeB zero (without_ticks tr) w2 = VariantB.Ok (obs, w2').
Proof.
  induction tr as [|e tr IH]; intros t0 w1 w2 Hc Hl; simpl in *.
  - eauto.
  - apply andb_prop in Hc as [Ht Hc]. apply Z.leb_le in Ht.
    pose proof (same_live_later t0 (clock e) _ _ Ht Hl) as Hl'.
    destruct e as [now key d v|now key|now]; simpl in *.
    + destruct (IH now
                  (VariantB.MkWorld
                     (VariantB.Set_ now key d v (VariantB.cache w1))
                     (VariantB.janitor_pc w1))
                  (VariantB.MkWorld
                     (VariantB.Set_ now key d v (VariantB.cache w2))
                     (VariantB.janitor_pc w2)) Hc)
        as (obs & w1' & w2' & -> & ->).
      { simpl. apply same_live_insert. exact Hl'. }
      simpl. eauto.
    + rewrite !getB_snd.
      destruct (IH now
                  (VariantB.MkWorld (VariantB.cache w1) (VariantB.janitor_pc w1))
                  (VariantB.MkWorld (VariantB.cache w2) (VariantB.janitor_pc w2))
                  Hc Hl')
        as (obs & w1' & w2' & -> & ->).
      simpl. rewrite (get_same_live now key _ _ Hl'). eauto.
    + destruct (tick_same_live now w1) as (w1t & -> & Ht1). simpl.
      destruct (IH now w1t w2 Hc) as (obs & w1' & w2' & -> & ->).
      { intros k. rewrite (Ht1 k). apply Hl'. }
      simpl. eauto.
Qed.

(** X15. The janitor never changes what clients observe: over any trace
    of [Set]s, [Get]s and ticks whose clock readings never go back, every
    [Get] returns exactly what it returns when the ticks are left out of
    the trace, whatever the durations and however the sweeps interleave
    with the calls. *)
Theorem janitor_transparent
    (t0 : Time) (tr : list (event T)) (w : VariantB.World T) :
  chronological t0 tr = true ->
  exists obs w1 w2,
    observeB zero tr w = VariantB.Ok (obs, w1) /\
    observeB zero (without_ticks tr) w = VariantB.Ok (obs, w2).
Proof.
  intros Hc. apply (observeB_without_ticks tr t0 w w Hc), same_live_refl.
Qed.

(** X16. The two variants are indistinguishable to their clients when
    every write asks for the cache-wide TTL: starting from mappings with
    the same live entries, over any trace whose clock readings never go
    back, every [Get] of Variant A (which deletes what it finds expired)
    returns what the same [Get] of Variant B returns (which leaves
    deletion to the janitor's ticks). *)
Theorem variants_agree
    (t0 : Time) (tr : list (event T))
    (cA : VariantA.SimpleCache T) (wB : VariantB.World T) :
  chronological t0 tr = true ->
  uniform_ttl (VariantA.expiryDur cA) tr = true ->
  same_live t0 (VariantA.data cA) (VariantB.data (VariantB.cache wB)) ->
  exists wB',
    observeB zero tr wB = VariantB.Ok (fst (observeA zero tr cA), wB').
Proof.
  revert t0 cA wB. induction tr as [|e tr IH]; intros t0 cA wB Hc Hu Hl;
    simpl in *.
  - eauto.
  - apply andb_prop in Hc as [Ht Hc]. apply Z.leb_le in Ht.
    apply andb_prop in Hu as [Hd Hu].
    pose proof (same_live_later t0 (clock e) _ _ Ht Hl) as Hl'.
    destruct e as [now key d v|now key|now]; simpl in *.
    + apply Z.eqb_eq in Hd. subst d.
      destruct (IH now (VariantA.Set_ now key v cA)
                  (VariantB.MkWorld
                     (VariantB.Set_ now key (VariantA.expiryDur cA) v
                        (VariantB.cache wB))
                     (VariantB.janitor_pc wB)) Hc Hu)
        as (wB' & ->).
      { simpl. apply same_live_insert. exact Hl'. }
      simpl. eauto.
    + rewrite getB_snd.
      destruct (getA_same_live now key cA) as [HlA HdA].
      destruct (IH now (snd (VariantA.Get zero now key cA))
                  (VariantB.MkWorld (VariantB.cache wB) (VariantB.janitor_pc wB))
                  Hc) as (wB' & ->).
      { rewrite HdA. exact Hu. }
      { intros k. rewrite (HlA k). apply Hl'. }
      simpl. rewrite (getAB_same_live now key _ _ Hl'). eauto.
    + destruct (tick_same_live now wB) as (wBt & -> & Ht1). simpl.
      destruct (IH now cA wBt Hc Hu) as (wB' & ->).
      { intros k. rewrite (Ht1 k). apply Hl'. }
      simpl. eauto.
Qed.

End Traces.

(** ** The further properties at concrete inputs *)

Lemma set_get_expired_witness :
  fst (VariantA.Get ""%string (100 + 15) "key1"
         (VariantA.Set_ 100 "key1" "value1"%string (VariantA.NewSimpleCache 10)))
  = (""%string, false).
Proof.
  assert (HA : VariantA.expiryDur (VariantA.NewSimpleCache (T:=string) 10) < 15)
    by (simpl; lia).
  assert (HB : 10 < 15) by lia.
  exact (f_equal fst
           (proj1 (set_get_expired ""%string 100 15 15 "key1" "value1"%string 10
                     (VariantA.NewSimpleCache 10)
                     (VariantB.cache (VariantB.NewSimpleCache 5)) HA HB))).
Defined.

Lemma key_independence_witness :
  fst (VariantB.Get ""%string 101 "k" (VariantB.Set_ 101 "other" 5 "w"%string exampleB))
  = fst (VariantB.Get ""%string 101 "k" exampleB).
Proof.
  assert (Hne : "other"%string <> "k"%string) by discriminate.
  exact (proj2 (proj2 (proj2 (proj2 (proj2
           (key_independence ""%string 101 101 "other" "k" "w"%string 5
              exampleA exampleB Hne)))))).
Defined.

Lemma not_found_is_stable_witness :
  fst (VariantA.Get ""%string 300 "k" (snd (VariantA.Get ""%string 106 "k" exampleA)))
    = (""%string, false) /\
  fst (VariantB.Get ""%string 300 "k" (snd (VariantB.Get ""%string 106 "k" exampleB)))
    = (""%string, false).
Proof.
  assert (Hle : 106 <= 300) by lia.
  apply (not_found_is_stable ""%string 106 300 "k" exampleA exampleB Hle);
    reflexivity.
Defined.

Lemma tick_invisible_to_get_witness :
  fst (VariantB.Get ""%string 108 "b"
         (VariantB.MkCache (<["b"%string := CacheItem "y"%string 110]> ∅)
                           5 false 1 false))
  = fst (VariantB.Get ""%string 108 "b"
           (VariantB.MkCache two_entries 5 false 1 false)).
Proof.
  assert (Hle : 107 <= 108) by lia.
  apply (tick_invisible_to_get ""%string 107 108 "b"
           (VariantB.MkWorld (VariantB.MkCache two_entries 5 false 1 false)
                             (VariantB.Selecting {| period := 5 |}))
           (VariantB.MkWorld
              (VariantB.MkCache (<["b"%string := CacheItem "y"%string 110]> ∅)
                                5 false 1 false)
              (VariantB.Selecting {| period := 5 |}))).
  - vm_compute. reflexivity.
  - exact Hle.
Defined.

Lemma sweep_compose_witness :
  VariantB.sweep 200 (VariantB.sweep 107 two_entries)
  = VariantB.sweep 200 two_entries.
Proof.
  assert (Hle : 107 <= 200) by lia.
  exact (proj1 (sweep_compose 107 200 two_entries Hle)).
Defined.

Lemma only_set_adds_witness :
  VariantB.data (VariantB.cache closedB_swept) ⊆ two_entries.
Proof.
  assert (Hos : forall k, forallb (fun o => negb (op_writes k o)) reading_ops
                          = true)
    by (intros k; reflexivity).
  assert (Hrun : VariantB.run ""%string reading_ops loadedB
                 = VariantB.Ok closedB_swept)
    by (vm_compute; reflexivity).
  exact (proj1 (only_set_adds ""%string reading_ops loadedB closedB_swept
                  Hos Hrun)).
Defined.

Lemma never_written_not_found_witness :
  VariantA.Get ""%string 101 "key2"
    (snd (observeA ""%string test_trace (VariantA.NewSimpleCache 10)))
    = ((""%string, false),
       snd (observeA ""%string test_trace (VariantA.NewSimpleCache 10))) /\
  VariantB.Get ""%string 101 "key2" (VariantB.cache closedB_swept)
    = ((""%string, false), VariantB.cache closedB_swept).
Proof.
  apply (never_written_not_found ""%string "key2" 101 test_trace
           (VariantA.NewSimpleCache 10) reading_ops loadedB closedB_swept).
  - reflexivity.
  - reflexivity.
  - reflexivity.
  - reflexivity.
  - vm_compute. reflexivity.
Defined.

Lemma unread_entry_stays_witness :
  VariantA.data (snd (observeA ""%string test_trace exampleA)) !! "k"%string
  = VariantA.data exampleA !! "k"%string.
Proof.
  assert (Hw : forallb (fun e => negb (writes "k" e)) test_trace = true)
    by reflexivity.
  assert (Hr : forallb (fun e => negb (reads "k" e)) test_trace = true)
    by reflexivity.
  exact (proj1 (unread_entry_stays ""%string "k" test_trace exampleA Hw Hr)).
Defined.

Lemma positive_interval_never_panics_witness :
  VariantB.run ""%string writing_ops (VariantB.NewSimpleCache 5)
  <> VariantB.Panic "non-positive interval for NewTicker".
Proof.
  assert (Hi : 0 < 5) by lia.
  exact (positive_interval_never_panics ""%string 5 writing_ops
           "non-positive interval for NewTicker" Hi).
Defined.

Lemma reachable_invariants_witness :
  VariantB.cleanupInterval (VariantB.cache writtenB) = 5 /\
  VariantB.done (VariantB.cache writtenB)
    = VariantB.closeOnce (VariantB.cache writtenB) /\
  (VariantB.wg (VariantB.cache writtenB) = 0 \/
   VariantB.wg (VariantB.cache writtenB) = 1) /\
  (VariantB.wg (VariantB.cache writtenB) = 0 <->
   VariantB.janitor_pc writtenB = VariantB.Exited) /\
  (VariantB.janitor_pc writtenB = VariantB.Exited ->
   VariantB.done (VariantB.cache writtenB) = true).
Proof.
  assert (Hi : 0 < 5) by lia.
  assert (Hrun : VariantB.run ""%string writing_ops (VariantB.NewSimpleCache 5)
                 = VariantB.Ok writtenB)
    by (vm_compute; reflexivity).
  exact (reachable_invariants ""%string 5 writing_ops writtenB Hi Hrun).
Defined.

Lemma close_terminates_witness :
  exists w',
    VariantB.Close [VariantB.Run; VariantB.Quit] writtenB = VariantB.Ok w' /\
    VariantB.janitor_pc w' = VariantB.Exited /\
    VariantB.done (VariantB.cache w') = true /\
    VariantB.wg (VariantB.cache w') = 0 /\
    VariantB.closeOnce (VariantB.cache w') = true /\
    VariantB.data (VariantB.cache w') = VariantB.data (VariantB.cache writtenB).
Proof.
  assert (Hi : 0 < 5) by lia.
  assert (Hrun : VariantB.run ""%string writing_ops (VariantB.NewSimpleCache 5)
                 = VariantB.Ok writtenB)
    by (vm_compute; reflexivity).
  exact (close_terminates ""%string 5 writing_ops writtenB Hi Hrun).
Defined.

Lemma close_waits_for_janitor_witness :
  VariantB.Close [VariantB.Run; VariantB.Tick 200] writtenB = VariantB.Blocked /\
  VariantB.Close [] writtenB = VariantB.Blocked.
Proof.
  assert (Hi : 0 < 5) by lia.
  assert (Hrun : VariantB.run ""%string writing_ops (VariantB.NewSimpleCache 5)
                 = VariantB.Ok writtenB)
    by (vm_compute; reflexivity).
  assert (Hpc : VariantB.janitor_pc writtenB <> VariantB.Exited)
    by discriminate.
  assert (Hq : VariantB.Quit ∉ [VariantB.Run; VariantB.Tick 200]).
  { intros Hin. repeat (apply elem_of_cons in Hin as [Hin|Hin];
      [discriminate|]). inversion Hin. }
  exact (close_waits_for_janitor ""%string 5 writing_ops writtenB
           [VariantB.Run; VariantB.Tick 200] Hi Hrun Hpc Hq).
Defined.

Lemma no_sweep_after_close_witness :
  VariantB.janitor_pc closedB = VariantB.Exited /\
  (forall e, VariantB.janitor e closedB = VariantB.Ok closedB) /\
  VariantB.run ""%string
    (map VariantB.OJanitor [VariantB.Tick 200; VariantB.Run]) closedB
  = VariantB.Ok closedB.
Proof.
  assert (Hi : 0 < 1) by lia.
  assert (Hrun : VariantB.run ""%string [] (VariantB.NewSimpleCache 1)
                 = VariantB.Ok (VariantB.NewSimpleCache (T:=string) 1))
    by reflexivity.
  assert (HC : VariantB.Close [VariantB.Run; VariantB.Quit]
                 (VariantB.NewSimpleCache 1) = VariantB.Ok closedB)
    by reflexivity.
  exact (no_sweep_after_close ""%string 1 [] (VariantB.NewSimpleCache 1) closedB
           [VariantB.Run; VariantB.Quit] [VariantB.Tick 200; VariantB.Run]
           Hi Hrun HC).
Defined.

Lemma janitor_transparent_witness :
  exists obs w1 w2,
    observeB ""%string test_trace writtenB = VariantB.Ok (obs, w1) /\
    observeB ""%string (without_ticks test_trace) writtenB
    = VariantB.Ok (obs, w2).
Proof.
  assert (Hc : chronological 100 test_trace = true) by reflexivity.
  exact (janitor_transparent ""%string 100 test_trace writtenB Hc).
Defined.

Lemma variants_agree_witness :
  exists wB',
    observeB ""%string test_trace writtenB
    = VariantB.Ok (fst (observeA ""%string test_trace writtenA), wB').
Proof.
  assert (Hc : chronological 100 test_trace = true) by reflexivity.
  assert (Hu : uniform_ttl (VariantA.expiryDur writtenA) test_trace = true)
    by reflexivity.
  assert (Hl : same_live 100 (VariantA.data writtenA)
                 (VariantB.data (VariantB.cache writtenB)))
    by (intros k; reflexivity).
  exact (variants_agree ""%string 100 test_trace writtenA writtenB Hc Hu Hl).
Defined.

(** The expiration test replayed: found at once, the other key missing,
    not found once the duration has passed; the same in both variants and
    with or without the janitor's ticks. *)
Example test_trace_observations :
  fst (observeA ""%string test_trace (VariantA.NewSimpleCache 10))
    = [("value1"%string, true); (""%string, false); (""%string, false)] /\
  observeB ""%string test_trace
    (VariantB.MkWorld (VariantB.MkCache ∅ 5 false 1 false)
                      (VariantB.Selecting {| period := 5 |}))
    = VariantB.Ok
        ([("value1"%string, true); (""%string, false); (""%string, false)],
         VariantB.MkWorld (VariantB.MkCache ∅ 5 false 1 false)
                          (VariantB.Selecting {| period := 5 |})).
Proof. split; vm_compute; reflexivity. Qed.
